(** * The concurrent search orchestrator of demo/searchInfo/search

    A shallow embedding of the Go package [search]: the matcher registry
    ([Register]), the feed loader ([RetrieveFeeds]), the per-feed worker
    ([Match]), the display loop ([Display]) and the orchestrator ([Run]).

    The goroutines of [Run] are modelled by an interleaving small-step
    semantics: one program counter per goroutine, the WaitGroup counter, the
    open/closed flag of the unbuffered channel and a chronological trace of the
    events that happened.  [step] executes the next instruction of one chosen
    goroutine, so a schedule is a list of goroutine identifiers and every
    property below is proved for every schedule.

    Modelling conventions:
    - a Go [error] is its message; the nil error is [None];
    - an entry of the slice [[]*Feed] that the decoder fills is [Some] of the
      record it points to, or [None] for the nil pointer that the decoder
      stores for a JSON [null]; [Run] reads [feed.Type] before it starts the
      goroutine of a feed, so a worker always has a feed;
    - a [*Result] handed over by a matcher is taken to be non-nil and is
      modelled by the record it points to; a nil slice and an empty slice are
      both [[]];
    - a [Matcher] interface value stored in the registry is an implementation
      (a total [Search] function); the nil interface value that a failed map
      lookup yields is [None];
    - [os.Open] and the JSON decoder belong to the Go standard library and are
      parameters of the development. *)

From stdpp Require Import base option list gmap strings.
From Stdlib Require Import ZArith Lia.

(** ** Data model ([Feed], and [Result] and [Matcher] of match.go) *)

Definition error := string.

Record Feed := mkFeed {
  Name : string;
  URI : string;
  Type_ : string
}.

Record Result := mkResult {
  Field : string;
  Content : string
}.

(** The [Matcher] interface: [Search] returns a slice and an error at once. *)
Record Matcher := mkMatcher {
  Search : Feed -> string -> list Result * option error
}.

(** default.go: [defaultMatcher.Search] returns [nil, nil]. *)
Definition defaultMatcher : Matcher :=
  {| Search := fun _ _ => ([], None) |}.

(** ** The registry (search.go, [matchers] and [Register]) *)

(** The part of the process that initialisation code acts on: the package
    level map [matchers] and the lines written to the logger. *)
Record proc := Proc {
  matchers : gmap string Matcher;
  log : list string
}.

(** A call either returns or ends the process: [log.Fatal] writes its message
    and calls [os.Exit(1)], so nothing after it is executed.  [Fatal] holds that
    message. *)
Inductive outcome (A : Type) : Type :=
| Fatal (msg : string)
| Normal (a : A).
Arguments Fatal {A} msg.
Arguments Normal {A} a.

Definition proc0 : proc := {| matchers := ∅; log := [] |}.

Definition Register (feedType : string) (matcher : Matcher) (p : proc) : outcome proc :=
  match matchers p !! feedType with
  | Some _ => Fatal (feedType +:+ " Matcher already registered")
  | None =>
      Normal {| matchers := <[feedType := matcher]> (matchers p);
                log := log p ++ ["Register " +:+ feedType +:+ " matcher"] |}
  end.

(** A batch of registrations, performed in order, as the [init] functions of
    the matcher packages do; the first fatal one ends the process. *)
Fixpoint register_all (regs : list (string * Matcher)) (p : proc) : outcome proc :=
  match regs with
  | [] => Normal p
  | (feedType, matcher) :: regs' =>
      match Register feedType matcher p with
      | Fatal msg => Fatal msg
      | Normal p' => register_all regs' p'
      end
  end.

(** The process states in which [main] can start.  The [init] of default.go
    registers the default matcher on the empty registry when the package is
    initialised, which is before the [init] of any package that imports it;
    then come the registrations [regs] of the matcher packages. *)
Definition startup (regs : list (string * Matcher)) : outcome proc :=
  register_all (("default", defaultMatcher) :: regs) proc0.

(** Lines 32-35 of [Run]: the matcher bound to the feed's type, else whatever
    [matchers["default"]] yields, the nil interface when the key is absent. *)
Definition resolve (ms : gmap string Matcher) (feed : Feed) : option Matcher :=
  match ms !! Type_ feed with
  | Some matcher => Some matcher
  | None => ms !! "default"
  end.

(** ** The worker (match.go, [Match]) *)

(** What a worker does to the outside, one after the other. *)
Inductive action :=
| ALog (e : error)
| ASend (r : Result).

Definition Match (match_ : Matcher) (feed : Feed) (searchTerm : string) : list action :=
  let '(searchResults, err) := Search match_ feed searchTerm in
  match err with
  | Some e => [ALog e]
  | None => ASend <$> searchResults
  end.

(** The results among a sequence of actions, in order. *)
Definition sent_of (a : action) : option Result :=
  match a with ASend r => Some r | ALog _ => None end.

Definition logged_of (a : action) : option error :=
  match a with ALog e => Some e | ASend _ => None end.

(** ** The feed source ([RetrieveFeeds]) *)

Definition dataFile : string := "data/data.json".

(** ** The goroutines of [Run] (search.go) *)

(** The goroutine started for one feed at line 38: its two arguments and
    where it stands.  [WStart]: [Match] not yet called.  [WRun k]: inside
    [Match], with the actions [k] still to perform; with [k] empty, [Match]
    has returned and the deferred [waitGroup.Done] is next.  [WExit]: the
    goroutine has ended. *)
Inductive worker_pc :=
| WStart
| WRun (k : list action)
| WExit.

Record worker := Worker {
  w_matcher : option Matcher;
  w_feed : Feed;
  w_pc : worker_pc
}.

(** The goroutine that called [Run].  [MSpawn fs]: in the loop of line 30
    with the entries [fs] of the slice still to visit, [None] being a nil
    pointer.  [MDisplay]: in [Display], waiting to
    receive from the channel.  [MPrint r]: in [Display], [r] received and
    about to be printed.  [MReturned]: [Display] and [Run] have returned. *)
Inductive main_pc :=
| MSpawn (fs : list (option Feed))
| MDisplay
| MPrint (r : Result)
| MReturned.

(** The goroutine of line 45, the only place where the channel is closed.  [SWait]: in [waitGroup.Wait].  [SClose]:
    [Wait] has returned and [close(results)] is next. *)
Inductive sentinel_pc :=
| SNotStarted
| SWait
| SClose
| SExit.

Inductive event :=
| EvLog (i : nat) (e : error)
| EvSend (i : nat) (r : Result)
| EvPrint (r : Result)
| EvDone (i : nat)
| EvClose.

Record state := State {
  main : main_pc;
  workers : list worker;
  sentinel : sentinel_pc;
  wg : Z;
  closed : bool;
  trace : list event
}.

(** The run-time panics of the primitives used, each of which ends the
    process. *)
Inductive panic :=
| NilFeed
| NilMatcher
| SendOnClosed
| NegativeCounter
| CloseOfClosed.

Inductive step_result :=
| Blocked
| Panic (p : panic)
| Next (s : state).

Inductive tid :=
| TMain
| TSentinel
| TWorker (i : nat).

Definition set_pc (w : worker) (pc : worker_pc) : worker :=
  {| w_matcher := w_matcher w; w_feed := w_feed w; w_pc := pc |}.

(** The projections of a trace. *)
Definition printed_of (ev : event) : option Result :=
  match ev with EvPrint r => Some r | _ => None end.

Definition send_of (ev : event) : option (nat * Result) :=
  match ev with EvSend i r => Some (i, r) | _ => None end.

(** What worker [i] did, as the actions of [Match]. *)
Definition action_of (i : nat) (ev : event) : option action :=
  match ev with
  | EvLog j e => if decide (j = i) then Some (ALog e) else None
  | EvSend j r => if decide (j = i) then Some (ASend r) else None
  | _ => None
  end.

Definition done_of (i : nat) (ev : event) : option unit :=
  match ev with
  | EvDone j => if decide (j = i) then Some () else None
  | _ => None
  end.

Definition any_done_of (ev : event) : option nat :=
  match ev with EvDone j => Some j | _ => None end.

Definition close_of (ev : event) : option unit :=
  match ev with EvClose => Some () | _ => None end.

(** What [Display] wrote, in order. *)
Definition printed (tr : list event) : list Result := omap printed_of tr.
(** What went through the channel, in order, with the sending worker. *)
Definition sends (tr : list event) : list (nat * Result) := omap send_of tr.
Definition actions (i : nat) (tr : list event) : list action := omap (action_of i) tr.
Definition dones (i : nat) (tr : list event) : nat := length (omap (done_of i) tr).
Definition all_dones (tr : list event) : nat := length (omap any_done_of tr).
Definition closes (tr : list event) : nat := length (omap close_of tr).

(** Among what went through the channel, the results that worker [i] sent. *)
Definition from_worker (i : nat) (ds : list (nat * Result)) : list Result :=
  (filter (fun d => d.1 = i) ds).*2.

(** What was logged, in order, with the logging worker. *)
Definition log_of (ev : event) : option (nat * error) :=
  match ev with EvLog i e => Some (i, e) | _ => None end.

Definition logs (tr : list event) : list (nat * error) := omap log_of tr.

(** The entries of a tagged list that carry tag [i]. *)
Definition by_tag {A} (i : nat) (l : list (nat * A)) : list A :=
  (filter (fun d => d.1 = i) l).*2.

(** ** Sample data

    The second scenario of the specification: an "rss" matcher that finds one
    result in feed A and fails on every other feed, handing back a result
    together with its error. *)
Definition found : Result := {| Field := "Title"; Content := "x found" |}.
Definition stale : Result := {| Field := "Title"; Content := "stale" |}.

Definition rssMatcher : Matcher :=
  {| Search := fun feed _ =>
       if String.eqb (Name feed) "A" then ([found], None)
       else ([stale], Some "fetch failed") |}.

Definition feedA : Feed := {| Name := "A"; URI := "http://a"; Type_ := "rss" |}.
Definition feedB : Feed := {| Name := "B"; URI := "http://b"; Type_ := "rss" |}.
Definition feedC : Feed := {| Name := "C"; URI := "http://c"; Type_ := "atom" |}.
Definition feedD : Feed := {| Name := "A"; URI := "http://d"; Type_ := "default" |}.

Definition sample_regs : list (string * Matcher) := [("rss", rssMatcher)].
Definition sample_ms : gmap string Matcher :=
  <["rss" := rssMatcher]> (<["default" := defaultMatcher]> ∅).
Definition sample_proc : proc :=
  {| matchers := sample_ms;
     log := ["Register default matcher"; "Register rss matcher"] |}.

(** One schedule of the run over feeds A and B, and the state it ends in:
    both workers are started, B's search fails and is logged, A's result is
    handed to [Display] and printed, both workers call [Done], the sentinel
    closes the channel and [Display] returns. *)
Definition sample_sched : list tid :=
  [TMain; TMain; TWorker 1; TWorker 1; TWorker 0; TMain; TWorker 0; TMain;
   TWorker 1; TWorker 0; TSentinel; TSentinel; TMain].

Definition sample_final : state :=
  {| main := MReturned;
     workers := [Worker (Some rssMatcher) feedA WExit;
                 Worker (Some rssMatcher) feedB WExit];
     sentinel := SExit; wg := 0; closed := true;
     trace := [EvLog 1 "fetch failed"; EvSend 0 found; EvPrint found;
               EvDone 1; EvDone 0; EvClose] |}.

(** The schedule that [pick] follows on the same feeds: here worker B is over
    before [Display] starts, and the channel is closed before the one result
    is printed. *)
Definition sample_sched2 : list tid :=
  [TMain; TWorker 0; TMain; TWorker 1; TWorker 1; TWorker 1; TMain;
   TWorker 0; TWorker 0; TSentinel; TSentinel; TMain; TMain].

Definition sample_final2 : state :=
  {| main := MReturned;
     workers := [Worker (Some rssMatcher) feedA WExit;
                 Worker (Some rssMatcher) feedB WExit];
     sentinel := SExit; wg := 0; closed := true;
     trace := [EvLog 1 "fetch failed"; EvDone 1; EvSend 0 found;
               EvDone 0; EvClose; EvPrint found] |}.







(** A file system with a readable data file, one that refuses to open it,
    and a decoder that accepts one text only and gives up after the first
    feed of any other. *)
Definition sample_open (path : string) : string + error :=
  if String.eqb path dataFile then inl "feeds" else inr "no such file".
Definition sample_denied (path : string) : string + error :=
  inr "open data/data.json: permission denied".
Definition sample_decode (file : string) : list (option Feed) * option error :=
  if String.eqb file "feeds" then ([Some feedA; Some feedB; Some feedC], None)
  else ([Some feedA], Some "unexpected end of JSON input").
Definition sample_truncated (path : string) : string + error := inl "[{".

(** Data files with a [null] among the feeds, as the decoder reads them: the
    file "[null]", and a file with the feeds A and B followed by [null]. *)
Definition null_open (path : string) : string + error := inl "[null]".
Definition null_decode (file : string) : list (option Feed) * option error :=
  if String.eqb file "[null]" then ([None], None)
  else ([Some feedA; Some feedB; None], None).
Definition null_last_open (path : string) : string + error := inl "[A, B, null]".

(** * The expression demo (demo/paresExpress/demo.go)

    The five implementations of the interface [Expr] are the constructors of
    one inductive type, and a method call on an [Expr] is a call of the
    function of that name.  [float64] with its arithmetic, the functions of
    package [math] and the two formatting functions of package [strconv] are
    parameters.  A run-time panic of [Eval] (the explicit [panic] of an
    unsupported operator or function, an index out of range) is [None]. *)

Module Demo.

Import Stdlib.Strings.Ascii.
#[local] Set Warnings "-register-all".

(** A [rune] is a code point. *)
Definition rune := Z.

Definition rune_of (c : Ascii.ascii) : rune := Z.of_N (Ascii.N_of_ascii c).

Class Lib := {
  float64 : Type;
  (** the zero value, which a map yields for a missing key *)
  fzero : float64;
  fadd : float64 -> float64 -> float64;
  fsub : float64 -> float64 -> float64;
  fmul : float64 -> float64 -> float64;
  fdiv : float64 -> float64 -> float64;
  fneg : float64 -> float64;
  math_Pow : float64 -> float64 -> float64;
  math_Sin : float64 -> float64;
  math_Sqrt : float64 -> float64;
  (** [strconv.FormatFloat(x, 'f', -1, 64)] *)
  FormatFloat : float64 -> string;
  QuoteRuneToASCII : rune -> string
}.

(** [strings.ContainsRune] on a string of ASCII characters: some byte of the
    string is the code point. *)
Definition ContainsRune (s : string) (r : rune) : bool :=
  existsb (fun c => (rune_of c =? r)%Z) (String.list_ascii_of_string s).

(** [numParams] *)
Definition numParams : gmap string Z := {["pow" := 2%Z; "sin" := 1%Z; "sqrt" := 1%Z]}.

(** The errors that [Check] builds with [fmt.Errorf], by what they report. *)
Inductive check_error :=
| UnexpectedUnaryOp (op : rune)
| UnexpectedBinaryOp (op : rune)
| UnknownFunction (fn : string)
| WrongArgCount (fn : string) (got want : Z).

Section Expressions.

Context {L : Lib}.

Inductive Expr :=
| Var (v : string)
| literal (l : float64)
| unary (op : rune) (x : Expr)
| binary (op : rune) (x y : Expr)
| call (fn : string) (args : list Expr).

(** [Env] *)
Definition Env := gmap string float64.

Fixpoint Eval (e : Expr) (env : gmap string float64) : option float64 :=
  match e with
  | Var v => Some (default fzero (env !! v))
  | literal l => Some l
  | unary op x =>
      if (op =? rune_of "+"%char)%Z then Eval x env
      else if (op =? rune_of "-"%char)%Z then fneg <$> Eval x env
      else None
  | binary op x y =>
      if (op =? rune_of "+"%char)%Z then
        a ← Eval x env; b ← Eval y env; Some (fadd a b)
      else if (op =? rune_of "-"%char)%Z then
        a ← Eval x env; b ← Eval y env; Some (fsub a b)
      else if (op =? rune_of "*"%char)%Z then
        a ← Eval x env; b ← Eval y env; Some (fmul a b)
      else if (op =? rune_of "/"%char)%Z then
        a ← Eval x env; b ← Eval y env; Some (fdiv a b)
      else None
  | call fn args =>
      if String.eqb fn "pow" then
        match args with
        | a0 :: a1 :: _ => a ← Eval a0 env; b ← Eval a1 env; Some (math_Pow a b)
        | _ => None
        end
      else if String.eqb fn "sin" then
        match args with
        | a0 :: _ => math_Sin <$> Eval a0 env
        | [] => None
        end
      else if String.eqb fn "sqrt" then
        match args with
        | a0 :: _ => math_Sqrt <$> Eval a0 env
        | [] => None
        end
      else None
  end.

(** The loop of [call.Check]: the arguments in order, up to the first error.
    The map [vars] is a reference, so what was added before an error stays
    added. *)
Definition check_args (check : Expr -> gmap string bool -> gmap string bool * option check_error) :
    list Expr -> gmap string bool -> gmap string bool * option check_error :=
  fix loop (args : list Expr) (vars : gmap string bool) :=
    match args with
    | [] => (vars, None)
    | arg :: rest =>
        let '(vars1, err) := check arg vars in
        match err with
        | Some e => (vars1, Some e)
        | None => loop rest vars1
        end
    end.

(** [Check]: [vars] is a map that has been made (an assignment to an entry of
    a nil map panics), given back as the call leaves it. *)
Fixpoint Check (e : Expr) (vars : gmap string bool) : gmap string bool * option check_error :=
  match e with
  | Var v => (<[v := true]> vars, None)
  | literal _ => (vars, None)
  | unary op x =>
      if negb (ContainsRune "+-" op) then (vars, Some (UnexpectedUnaryOp op))
      else Check x vars
  | binary op x y =>
      if negb (ContainsRune "+-*/" op) then (vars, Some (UnexpectedBinaryOp op))
      else
        let '(vars1, err) := Check x vars in
        match err with
        | Some e => (vars1, Some e)
        | None => Check y vars1
        end
  | call fn args =>
      match numParams !! fn with
      | None => (vars, Some (UnknownFunction fn))
      | Some arity =>
          if negb (Z.of_nat (length args) =? arity)%Z
          then (vars, Some (WrongArgCount fn (Z.of_nat (length args)) arity))
          else check_args Check args vars
      end
  end.

(** The loop of [call.String]: [i] is the index of the head of [args] in the
    whole slice, [len] the length of the whole slice, [acc] the local
    variable [args]. *)
Definition string_args (str : Expr -> string) (len : Z) :
    list Expr -> Z -> string -> string :=
  fix loop (args : list Expr) (i : Z) (acc : string) :=
    match args with
    | [] => acc
    | v :: rest =>
        let acc1 := acc +:+ str v in
        let acc2 := if (i <? len - 1)%Z then acc1 +:+ ", " else acc1 in
        loop rest (i + 1)%Z acc2
    end.

Fixpoint String_ (e : Expr) : string :=
  match e with
  | Var v => "变量:" +:+ v
  | literal l => "常量:" +:+ FormatFloat l
  | unary op x =>
      "(操作符号:" +:+ QuoteRuneToASCII op +:+ " | " +:+ String_ x +:+ ")"
  | binary op x y =>
      "(" +:+ String_ x +:+ " | 操作符号:" +:+ QuoteRuneToASCII op +:+ " | " +:+
      String_ y +:+ ")"
  | call fn args =>
      "函数:" +:+ fn +:+ "(" +:+
      string_args String_ (Z.of_nat (length args)) args 0%Z "" +:+ ")"
  end.

(** The variables that occur in an expression. *)
Fixpoint vars_of (e : Expr) : gset string :=
  match e with
  | Var v => {[v]}
  | literal _ => ∅
  | unary _ x => vars_of x
  | binary _ x y => vars_of x ∪ vars_of y
  | call _ args => ⋃ (vars_of <$> args)
  end.

(** [env[v]] *)
Definition get (env : gmap string float64) (v : string) : float64 :=
  default fzero (env !! v).

(** [vars'] is [vars] with some of the variables [X] set to [true]. *)
Definition grown (X : gset string) (vars vars' : gmap string bool) : Prop :=
  forall v, vars' !! v = vars !! v \/ (v ∈ X /\ vars' !! v = Some true).

End Expressions.

(** An arithmetic on integers to run the definitions with; it is exact on
    the values that [main] uses. *)
Definition sample_lib : Lib :=
  {| float64 := Z; fzero := 0%Z;
     fadd := Z.add; fsub := Z.sub; fmul := Z.mul; fdiv := Z.div; fneg := Z.opp;
     math_Pow := Z.pow; math_Sin := fun _ => 0%Z; math_Sqrt := Z.sqrt;
     FormatFloat := fun _ => "";
     QuoteRuneToASCII := fun r =>
       "'" +:+ String (Ascii.ascii_of_N (Z.to_N r)) "" +:+ "'" |}.

(** The values of [main]. *)
Definition env : gmap string Z := {["x" := 3%Z; "y" := 4%Z]}.
Definition wawa : gmap string Z :=
  {["q" := 1%Z; "w" := 2%Z; "e" := 3%Z; "x" := 3%Z; "y" := 4%Z]}.
Definition add : @Expr sample_lib := binary (rune_of "+"%char) (Var "x") (Var "y").
Definition taowa : @Expr sample_lib :=
  call "pow" [add; call "sqrt" [binary (rune_of "+"%char) (Var "e") (Var "q")]].

End Demo.

Section Orchestrator.

(** [os.Open]: the contents of the file at a path, or the error. *)
Variable os_Open : string -> string + error.
(** [json.NewDecoder(file).Decode(&feeds)]: what the decoder stored in
    [feeds], a slice of pointers, and its error. *)
Variable json_Decode : string -> list (option Feed) * option error.
(** The registry as the [init] functions left it, and the argument of [Run]. *)
Variable ms : gmap string Matcher.
Variable searchTerm : string.

Definition RetrieveFeeds : list (option Feed) * option error :=
  match os_Open dataFile with
  | inr err => ([], Some err)
  | inl file =>
      let '(feeds, err) := json_Decode file in
      (feeds, err)
  end.


(** The state after lines 20-27: channel made, counter raised to
    [len(feeds)], nil entries counted, no goroutine started yet. *)
Definition start (feeds : list (option Feed)) : state :=
  {| main := MSpawn feeds; workers := []; sentinel := SNotStarted;
     wg := Z.of_nat (length feeds); closed := false; trace := [] |}.

(** That state for a slice without a nil entry. *)
Definition init (feeds : list Feed) : state := start (Some <$> feeds).

(** match.go, [Display]: the loop [for result := range results].  Waiting on
    the channel, it leaves the loop when the channel is closed and is blocked
    while it is open (a worker's send is what moves it to [MPrint], see
    [step_worker]); holding a result, it prints its two fields. *)
Definition Display (s : state) : step_result :=
  match main s with
  | MDisplay =>
      if closed s
      then Next {| main := MReturned; workers := workers s;
                   sentinel := sentinel s; wg := wg s; closed := closed s;
                   trace := trace s |}
      else Blocked
  | MPrint r =>
      Next {| main := MDisplay; workers := workers s; sentinel := sentinel s;
              wg := wg s; closed := closed s; trace := trace s ++ [EvPrint r] |}
  | _ => Blocked
  end.

(** Lines 30-53 of [Run]: one turn of the loop reads the type of the next
    feed, which panics on a nil pointer, resolves its matcher and starts its
    goroutine; after the last turn the sentinel is started; then [Display]
    runs. *)
Definition step_main (s : state) : step_result :=
  match main s with
  | MSpawn (None :: rest) => Panic NilFeed
  | MSpawn (Some feed :: rest) =>
      Next {| main := MSpawn rest;
              workers := workers s ++ [Worker (resolve ms feed) feed WStart];
              sentinel := sentinel s; wg := wg s; closed := closed s;
              trace := trace s |}
  | MSpawn [] =>
      Next {| main := MDisplay; workers := workers s; sentinel := SWait;
              wg := wg s; closed := closed s; trace := trace s |}
  | MDisplay | MPrint _ => Display s
  | MReturned => Blocked
  end.

Definition step_sentinel (s : state) : step_result :=
  match sentinel s with
  | SNotStarted => Blocked
  | SWait =>
      if (wg s =? 0)%Z
      then Next {| main := main s; workers := workers s; sentinel := SClose;
                   wg := wg s; closed := closed s; trace := trace s |}
      else Blocked
  | SClose =>
      if closed s then Panic CloseOfClosed
      else Next {| main := main s; workers := workers s; sentinel := SExit;
                   wg := wg s; closed := true; trace := trace s ++ [EvClose] |}
  | SExit => Blocked
  end.

Definition step_worker (i : nat) (s : state) : step_result :=
  match workers s !! i with
  | None => Blocked
  | Some w =>
      match w_pc w with
      | WStart =>
          match w_matcher w with
          | None => Panic NilMatcher
          | Some matcher =>
              Next {| main := main s;
                      workers := <[i := set_pc w (WRun (Match matcher (w_feed w) searchTerm))]> (workers s);
                      sentinel := sentinel s; wg := wg s; closed := closed s;
                      trace := trace s |}
          end
      | WRun (ALog e :: k) =>
          Next {| main := main s;
                  workers := <[i := set_pc w (WRun k)]> (workers s);
                  sentinel := sentinel s; wg := wg s; closed := closed s;
                  trace := trace s ++ [EvLog i e] |}
      | WRun (ASend r :: k) =>
          if closed s then Panic SendOnClosed
          else match main s with
               | MDisplay =>
                   Next {| main := MPrint r;
                           workers := <[i := set_pc w (WRun k)]> (workers s);
                           sentinel := sentinel s; wg := wg s; closed := closed s;
                           trace := trace s ++ [EvSend i r] |}
               | _ => Blocked
               end
      | WRun [] =>
          if (wg s - 1 <? 0)%Z then Panic NegativeCounter
          else Next {| main := main s;
                       workers := <[i := set_pc w WExit]> (workers s);
                       sentinel := sentinel s; wg := (wg s - 1)%Z;
                       closed := closed s; trace := trace s ++ [EvDone i] |}
      | WExit => Blocked
      end
  end.

Definition step (t : tid) (s : state) : step_result :=
  match t with
  | TMain => step_main s
  | TSentinel => step_sentinel s
  | TWorker i => step_worker i s
  end.

(** Running a schedule: every goroutine named must be able to move. *)
Fixpoint exec (sched : list tid) (s : state) : option state :=
  match sched with
  | [] => Some s
  | t :: sched' =>
      match step t s with
      | Next s' => exec sched' s'
      | _ => None
      end
  end.

(** A scheduler: the first goroutine that can move, the workers in the order
    in which they were started, then the sentinel, then [Run] itself. *)
Definition pick (s : state) : list tid :=
  (TWorker <$> seq 0 (length (workers s))) ++ [TSentinel; TMain].

Fixpoint first_next (ts : list tid) (s : state) : option state :=
  match ts with
  | [] => None
  | t :: ts' =>
      match step t s with
      | Next s' => Some s'
      | _ => first_next ts' s
      end
  end.

Fixpoint run_fuel (fuel : nat) (s : state) : state :=
  match fuel with
  | O => s
  | S fuel' =>
      match first_next (pick s) s with
      | Some s' => run_fuel fuel' s'
      | None => s
      end
  end.


(** [Run] under a schedule.  A failed [RetrieveFeeds] ends the process at line
    16, before the channel is made and before any goroutine is started;
    otherwise the goroutines run as the schedule says ([None]: the schedule
    names a goroutine that cannot move, or one whose move is a panic). *)
Definition Run (sched : list tid) : outcome (option state) :=
  let '(feeds, err) := RetrieveFeeds in
  match err with
  | Some e => Fatal e
  | None => Normal (exec sched (start feeds))
  end.

(** *** A bound on the number of steps *)

Definition cost (a : action) : nat :=
  match a with ALog _ => 1 | ASend _ => 2 end.

(** The actions of a worker's whole life. *)
Definition program (w : worker) : list action :=
  match w_matcher w with
  | Some matcher => Match matcher (w_feed w) searchTerm
  | None => []
  end.

(** The actions a worker has yet to perform. *)
Definition remaining (w : worker) : list action :=
  match w_pc w with
  | WStart => program w
  | WRun k => k
  | WExit => []
  end.

Definition wmeasure (w : worker) : nat :=
  match w_pc w with
  | WStart => 2 + sum_list_with cost (program w)
  | WRun k => 1 + sum_list_with cost k
  | WExit => 0
  end.

Definition newborn (feed : Feed) : worker := Worker (resolve ms feed) feed WStart.

Definition mmeasure (m : main_pc) : nat :=
  match m with
  | MSpawn fs =>
      sum_list_with (fun ptr => match ptr with
                                | Some feed => 1 + wmeasure (newborn feed)
                                | None => 1
                                end) fs + 4
  | MDisplay => 1
  | MPrint _ => 2
  | MReturned => 0
  end.

Definition smeasure (sn : sentinel_pc) : nat :=
  match sn with
  | SNotStarted => 0
  | SWait => 2
  | SClose => 1
  | SExit => 0
  end.

Definition measure (s : state) : nat :=
  mmeasure (main s) + sum_list_with wmeasure (workers s) + smeasure (sentinel s).

(** *** The invariant of a run *)

(** The entries of the slice that the loop has yet to visit. *)
Definition pointers (m : main_pc) : list (option Feed) :=
  match m with MSpawn fs => fs | _ => [] end.

(** The feeds among them. *)
Definition todo (m : main_pc) : list Feed := omap id (pointers m).

Definition spawning (m : main_pc) : bool :=
  match m with MSpawn _ => true | _ => false end.

(** The result [Display] holds and has not printed yet. *)
Definition pending (m : main_pc) : list Result :=
  match m with MPrint r => [r] | _ => [] end.

Definition live (w : worker) : bool :=
  match w_pc w with WExit => false | _ => true end.

Definition live_count (ws : list worker) : nat :=
  sum_list_with (fun w => if live w then 1 else 0) ws.

Definition is_print (ev : event) : Prop :=
  match ev with EvPrint _ => True | _ => False end.

(** What the worker of a feed forwards in all: the results of a successful
    [Search], nothing when there is no matcher or [Search] failed. *)
Definition forwarded (feed : Feed) : list Result :=
  omap sent_of (program (newborn feed)).

(** What the worker of a feed logs in all: the error of a failed [Search]. *)
Definition failures (feed : Feed) : list error :=
  omap logged_of (program (newborn feed)).

(** The invariant of a run over a slice without a nil entry. *)
Record Inv (feeds : list Feed) (s : state) : Prop := {
  inv_nonnil : pointers (main s) = Some <$> todo (main s);
  inv_feeds : feeds = (w_feed <$> workers s) ++ todo (main s);
  inv_resolve : Forall (fun w => w_matcher w = resolve ms (w_feed w)) (workers s);
  inv_wg : wg s = Z.of_nat (length (todo (main s)) + live_count (workers s));
  inv_sentinel : sentinel s = SNotStarted <-> spawning (main s) = true;
  inv_closed : closed s = true <-> sentinel s = SExit;
  inv_waited : sentinel s = SClose \/ sentinel s = SExit -> wg s = 0%Z;
  inv_returned : main s = MReturned -> closed s = true;
  inv_worker : forall i w, workers s !! i = Some w ->
    actions i (trace s) ++ remaining w = program w /\
    dones i (trace s) = (if live w then 0 else 1);
  inv_unborn : forall i, length (workers s) <= i ->
    actions i (trace s) = [] /\ dones i (trace s) = 0;
  inv_printed : printed (trace s) ++ pending (main s) = (snd <$> sends (trace s));
  inv_dones : (Z.of_nat (all_dones (trace s)) + wg s)%Z = Z.of_nat (length feeds);
  inv_closes : closes (trace s) = (if closed s then 1 else 0);
  inv_close : closed s = true ->
    exists pre post, trace s = pre ++ EvClose :: post /\
      all_dones pre = length feeds /\ Forall is_print post
}.

(** ** Facts *)

Lemma sum_list_with_insert {A} (f : A -> nat) (l : list A) (i : nat) (x y : A) :
  l !! i = Some x ->
  sum_list_with f (<[i:=y]> l) + f x = sum_list_with f l + f y.
Proof.
  revert i. induction l as [|a l IH]; intros [|i] Hi; simplify_eq/=.
  - lia.
  - specialize (IH _ Hi). lia.
Qed.

Lemma sum_list_with_snoc {A} (f : A -> nat) (l : list A) (x : A) :
  sum_list_with f (l ++ [x]) = sum_list_with f l + f x.
Proof. rewrite sum_list_with_app. simpl. lia. Qed.

Lemma step_main_measure s s' : step_main s = Next s' -> measure s' < measure s.
Proof.
  unfold step_main, Display, measure. intros H.
  destruct (main s) as [[|[feed|] rest]| |r|] eqn:Hm; simplify_eq/=.
  - destruct (sentinel s); simpl; lia.
  - rewrite sum_list_with_snoc.
    change (Worker (resolve ms feed) feed WStart) with (newborn feed).
    change (wmeasure (newborn feed)) with (2 + sum_list_with cost (program (newborn feed))).
    lia.
  - destruct (closed s); simplify_eq/=. lia.
  - lia.
Qed.

Lemma step_sentinel_measure s s' : step_sentinel s = Next s' -> measure s' < measure s.
Proof.
  unfold step_sentinel, measure. intros H.
  destruct (sentinel s) eqn:Hs; simplify_eq/=.
  - destruct (wg s =? 0)%Z; simplify_eq/=. lia.
  - destruct (closed s); simplify_eq/=. lia.
Qed.

Lemma wmeasure_insert ws i w pc d :
  ws !! i = Some w ->
  wmeasure (set_pc w pc) + d = wmeasure w ->
  sum_list_with wmeasure (<[i:=set_pc w pc]> ws) + d = sum_list_with wmeasure ws.
Proof.
  intros Hw Hd.
  pose proof (sum_list_with_insert wmeasure _ _ _ (set_pc w pc) Hw). lia.
Qed.

Lemma step_worker_measure i s s' : step_worker i s = Next s' -> measure s' < measure s.
Proof.
  unfold step_worker, measure. intros H.
  destruct (workers s !! i) as [w|] eqn:Hw; [|done].
  destruct (w_pc w) as [|[|[e|r] k]|] eqn:Hpc.
  - destruct (w_matcher w) as [matcher|] eqn:Hmt; simplify_eq/=.
    rewrite <- (wmeasure_insert (workers s) i w
      (WRun (Match matcher (w_feed w) searchTerm)) 1 Hw); [lia|].
    unfold wmeasure, program; simpl. rewrite Hpc, Hmt. lia.
  - destruct (wg s - 1 <? 0)%Z; simplify_eq/=.
    rewrite <- (wmeasure_insert (workers s) i w WExit 1 Hw); [lia|].
    unfold wmeasure; simpl. rewrite Hpc. simpl. lia.
  - simplify_eq/=.
    rewrite <- (wmeasure_insert (workers s) i w (WRun k) 1 Hw); [lia|].
    unfold wmeasure; simpl. rewrite Hpc. simpl. lia.
  - destruct (closed s); [done|].
    destruct (main s) eqn:Hm; simplify_eq/=.
    rewrite <- (wmeasure_insert (workers s) i w (WRun k) 2 Hw); [lia|].
    unfold wmeasure; simpl. rewrite Hpc. simpl. lia.
  - done.
Qed.

(** Every step of every goroutine lowers [measure]. *)
Lemma step_measure t s s' : step t s = Next s' -> measure s' < measure s.
Proof.
  destruct t; simpl;
    eauto using step_main_measure, step_sentinel_measure, step_worker_measure.
Qed.

Lemma exec_app sched1 sched2 s :
  exec (sched1 ++ sched2) s = exec sched1 s ≫= exec sched2.
Proof.
  revert s. induction sched1 as [|t sched1 IH]; intros s; simpl; [done|].
  destruct (step t s); simpl; auto.
Qed.

(** No schedule is longer than the measure of the state it starts in. *)
Lemma exec_measure sched s s' :
  exec sched s = Some s' -> length sched + measure s' <= measure s.
Proof.
  revert s. induction sched as [|t sched IH]; intros s H; simplify_eq/=; [lia|].
  destruct (step t s) as [| |s1] eqn:Hst; try done.
  apply step_measure in Hst. apply IH in H. lia.
Qed.

(** *** The invariant holds initially and is kept by every step *)

Lemma live_count_insert ws i w pc :
  ws !! i = Some w ->
  live_count (<[i:=set_pc w pc]> ws) + (if live w then 1 else 0) =
  live_count ws + (if live (set_pc w pc) then 1 else 0).
Proof.
  intros Hw. unfold live_count.
  exact (sum_list_with_insert (fun w => if live w then 1 else 0) ws i w (set_pc w pc) Hw).
Qed.

Lemma live_count_zero ws i w : live_count ws = 0 -> ws !! i = Some w -> live w = false.
Proof.
  intros H0 Hw. apply list_elem_of_lookup_2 in Hw.
  apply (sum_list_with_in _ (fun w => if live w then 1 else 0)) in Hw.
  unfold live_count in H0. destruct (live w); [lia|done].
Qed.

Lemma live_count_pos ws i w : ws !! i = Some w -> live w = true -> 0 < live_count ws.
Proof.
  intros Hw Hl. destruct (live_count ws) eqn:E; [|lia].
  rewrite (live_count_zero _ _ _ E Hw) in Hl. done.
Qed.

Lemma fmap_feed_insert (ws : list worker) (i : nat) w pc :
  ws !! i = Some w -> w_feed <$> <[i:=set_pc w pc]> ws = w_feed <$> ws.
Proof.
  intros Hw. rewrite list_fmap_insert. simpl.
  apply list_insert_id. by rewrite list_lookup_fmap, Hw.
Qed.

Lemma omap_id_Some (feeds : list Feed) : omap id (Some <$> feeds) = feeds.
Proof. induction feeds as [|feed feeds IH]; simpl; [done|]. by f_equal. Qed.

Lemma todo_init feeds : todo (MSpawn (Some <$> feeds)) = feeds.
Proof. apply omap_id_Some. Qed.

Lemma todo_Some_cons feed rest :
  todo (MSpawn (Some feed :: rest)) = feed :: todo (MSpawn rest).
Proof. reflexivity. Qed.

Lemma Inv_init feeds : Inv feeds (init feeds).
Proof.
  split; unfold init, start; cbn [main workers sentinel wg closed trace];
    rewrite ?todo_init; try done.
  - rewrite length_fmap. unfold live_count. simpl. f_equal. lia.
  - intros [?|?]; done.
  - rewrite length_fmap. unfold all_dones. simpl. lia.
Qed.

(** Once the channel is closed every worker has ended. *)
Lemma Inv_closed_exit feeds s i w :
  Inv feeds s -> closed s = true -> workers s !! i = Some w -> live w = false.
Proof.
  intros I Hc Hw.
  assert (wg s = 0%Z) as H0.
  { apply (inv_waited _ _ I). right. by apply (inv_closed _ _ I). }
  rewrite (inv_wg _ _ I) in H0.
  apply (live_count_zero (workers s) i); [lia|done].
Qed.

Lemma Inv_live_open feeds s i w :
  Inv feeds s -> workers s !! i = Some w -> live w = true ->
  closed s = false /\ (0 < wg s)%Z /\ sentinel s <> SClose /\ sentinel s <> SExit.
Proof.
  intros I Hw Hl.
  assert (0 < wg s)%Z as Hpos.
  { rewrite (inv_wg _ _ I). pose proof (live_count_pos _ _ _ Hw Hl). lia. }
  repeat split; [|done| |].
  - destruct (closed s) eqn:Hc; [|done].
    rewrite (Inv_closed_exit _ _ _ _ I Hc Hw) in Hl. done.
  - intros Hs. pose proof (inv_waited _ _ I (or_introl Hs)). lia.
  - intros Hs. pose proof (inv_waited _ _ I (or_intror Hs)). lia.
Qed.

Ltac trace_simpl :=
  unfold printed, sends, actions, dones, all_dones, closes in *;
  rewrite ?omap_app, ?length_app, ?fmap_app; simpl;
  rewrite ?app_nil_r, ?Nat.add_0_r.

Lemma step_main_Inv feeds s s' : Inv feeds s -> step_main s = Next s' -> Inv feeds s'.
Proof.
  intros I. unfold step_main, Display.
  destruct (main s) as [[|[feed|] rest]| |r|] eqn:Hm; intros H; [| |done|..].
  - (* the loop is over: the sentinel is started *)
    simplify_eq. destruct I. rewrite Hm in *; simpl in *.
    assert (sentinel s = SNotStarted) as Hs by (by apply inv_sentinel0).
    assert (closed s = false) as Hc.
    { destruct (closed s); [|done]. destruct inv_closed0 as [Hx _].
      specialize (Hx eq_refl). congruence. }
    split; simpl; try done.
    + rewrite Hc. split; done.
    + intros [?|?]; done.
  - (* one more worker is started *)
    simplify_eq. destruct I. rewrite Hm in *.
    rewrite todo_Some_cons in *. cbn [pointers spawning] in *.
    rewrite fmap_cons in inv_nonnil0. injection inv_nonnil0 as Hnn.
    split; cbn [main workers sentinel wg closed trace pointers spawning pending];
      try done.
    + rewrite fmap_app. simpl. by rewrite <- app_assoc.
    + apply Forall_app. split; [done|]. by apply Forall_singleton.
    + rewrite inv_wg0. unfold live_count. rewrite sum_list_with_snoc.
      cbn [length live w_pc]. lia.
    + intros i w [[Hi Hw]|[-> <-]]%lookup_snoc_Some; [by apply inv_worker0|].
      destruct (inv_unborn0 (length (workers s))) as [-> ->]; [lia|]. done.
    + intros i Hi. rewrite length_app in Hi. simpl in Hi. apply inv_unborn0. lia.
  - (* the channel is closed: Display returns *)
    destruct (closed s) eqn:Hc; [|done]. simplify_eq.
    destruct I. rewrite Hm, ?Hc in *; simpl in *.
    split; simpl; rewrite ?Hc; try done.
  - (* Display prints what it received *)
    simplify_eq. destruct I. rewrite Hm in *; simpl in *.
    split; simpl; try done.
    + intros i w Hw. trace_simpl. by apply inv_worker0.
    + intros i Hi. trace_simpl. by apply inv_unborn0.
    + trace_simpl. done.
    + trace_simpl. lia.
    + trace_simpl. lia.
    + intros Hc. destruct (inv_close0 Hc) as (pre & post & -> & Hd & Hp).
      exists pre, (post ++ [EvPrint r]). split; [by rewrite <- app_assoc|].
      split; [done|]. apply Forall_app. split; [done|]. by apply Forall_singleton.
  - done.
Qed.

Lemma step_sentinel_Inv feeds s s' :
  Inv feeds s -> step_sentinel s = Next s' -> Inv feeds s'.
Proof.
  intros I. unfold step_sentinel.
  destruct (sentinel s) eqn:Hs; intros H; try done.
  - (* Wait returns *)
    destruct (wg s =? 0)%Z eqn:H0; [|done]. simplify_eq.
    apply Z.eqb_eq in H0.
    destruct I. rewrite Hs in *. split; simpl; try done.
    + split; [done|]. intros Hsp. by apply inv_sentinel0 in Hsp.
    + split; [|done]. intros Hc. by apply inv_closed0 in Hc.
  - (* close(results) *)
    destruct (closed s) eqn:Hc; [done|]. simplify_eq.
    destruct I. rewrite Hs, ?Hc in *.
    assert (wg s = 0%Z) as H0 by auto.
    split; simpl; try done.
    + split; [done|]. intros Hsp. by apply inv_sentinel0 in Hsp.
    + intros i w Hw. trace_simpl. by apply inv_worker0.
    + intros i Hi. trace_simpl. by apply inv_unborn0.
    + trace_simpl. done.
    + trace_simpl. lia.
    + trace_simpl. lia.
    + intros _. exists (trace s), []. split; [done|]. split; [|done].
      unfold all_dones in *. lia.
Qed.

Lemma step_worker_Inv feeds i s s' :
  Inv feeds s -> step_worker i s = Next s' -> Inv feeds s'.
Proof.
  intros I. unfold step_worker.
  destruct (workers s !! i) as [w|] eqn:Hw; [|done].
  assert (i < length (workers s)) as Hlt by (by eapply lookup_lt_Some).
  destruct (w_pc w) as [|[|[e|r] k]|] eqn:Hpc; intros H; try done.
  - (* Match is called *)
    destruct (w_matcher w) as [matcher|] eqn:Hmt; [|done]. simplify_eq.
    pose proof (live_count_insert _ _ _ (WRun (Match matcher (w_feed w) searchTerm)) Hw) as Hlc.
    unfold live in Hlc. simpl in Hlc. rewrite Hpc in Hlc.
    destruct I. split; simpl; try done.
    + by rewrite fmap_feed_insert.
    + apply Forall_insert; [done|]. simpl. by eapply (Forall_lookup_1 _ _ _ _ inv_resolve0).
    + rewrite inv_wg0. lia.
    + intros j w' Hj. destruct (decide (i = j)) as [<-|Hne].
      * rewrite list_lookup_insert_eq in Hj by done. simplify_eq.
        destruct (inv_worker0 _ _ Hw) as [Ha Hd].
        unfold remaining, program, live in *. simpl. rewrite Hpc, Hmt in *. done.
      * rewrite list_lookup_insert_ne in Hj by done. by apply inv_worker0.
    + intros j Hj. rewrite length_insert in Hj. by apply inv_unborn0.
  - (* Match has returned: the deferred Done *)
    destruct (wg s - 1 <? 0)%Z eqn:Hneg; [done|]. simplify_eq.
    assert (live w = true) as Hl by (unfold live; by rewrite Hpc).
    destruct (Inv_live_open _ _ _ _ I Hw Hl) as (Hc & Hpos & Hs1 & Hs2).
    pose proof (live_count_insert _ _ _ WExit Hw) as Hlc.
    rewrite Hl in Hlc. unfold live in Hlc. simpl in Hlc.
    destruct I. rewrite ?Hc in *. split; simpl; rewrite ?Hc; try done.
    + by rewrite fmap_feed_insert.
    + apply Forall_insert; [done|]. simpl. by eapply (Forall_lookup_1 _ _ _ _ inv_resolve0).
    + rewrite inv_wg0. lia.
    + intros [?|?]; done.
    + intros j w' Hj. trace_simpl. destruct (decide (i = j)) as [<-|Hne].
      * rewrite list_lookup_insert_eq in Hj by done. simplify_eq.
        destruct (inv_worker0 _ _ Hw) as [Ha Hd]. rewrite Hl in Hd.
        simpl.
        unfold remaining, program, live in *. simpl. rewrite Hpc in *.
        rewrite ?app_nil_r in Ha |- *. split; [done|lia].
      * rewrite list_lookup_insert_ne in Hj by done.
        simpl. rewrite ?app_nil_r, ?Nat.add_0_r.
        by apply inv_worker0.
    + intros j Hj. rewrite length_insert in Hj. trace_simpl.
      rewrite decide_False by lia. simpl. rewrite ?app_nil_r, ?Nat.add_0_r.
      by apply inv_unborn0.
    + trace_simpl. done.
    + trace_simpl. lia.
    + trace_simpl. lia.
  - (* log.Println(err) *)
    simplify_eq.
    assert (live w = true) as Hl by (unfold live; by rewrite Hpc).
    destruct (Inv_live_open _ _ _ _ I Hw Hl) as (Hc & Hpos & Hs1 & Hs2).
    pose proof (live_count_insert _ _ _ (WRun k) Hw) as Hlc.
    rewrite Hl in Hlc. unfold live in Hlc. simpl in Hlc.
    destruct I. rewrite ?Hc in *. split; simpl; rewrite ?Hc; try done.
    + by rewrite fmap_feed_insert.
    + apply Forall_insert; [done|]. simpl. by eapply (Forall_lookup_1 _ _ _ _ inv_resolve0).
    + rewrite inv_wg0. lia.
    + intros j w' Hj. trace_simpl. destruct (decide (i = j)) as [<-|Hne].
      * rewrite list_lookup_insert_eq in Hj by done. simplify_eq.
        destruct (inv_worker0 _ _ Hw) as [Ha Hd]. rewrite Hl in Hd.
        simpl.
        unfold remaining, program, live in *. simpl. rewrite Hpc in *.
        rewrite <- app_assoc. simpl. split; [done|lia].
      * rewrite list_lookup_insert_ne in Hj by done.
        simpl. rewrite ?app_nil_r, ?Nat.add_0_r.
        by apply inv_worker0.
    + intros j Hj. rewrite length_insert in Hj. trace_simpl.
      rewrite decide_False by lia. simpl. rewrite ?app_nil_r, ?Nat.add_0_r.
      by apply inv_unborn0.
    + trace_simpl. done.
    + trace_simpl. lia.
    + trace_simpl. lia.
  - (* results <- result, received by Display *)
    destruct (closed s) eqn:Hc; [done|].
    destruct (main s) eqn:Hm; try done. simplify_eq.
    assert (live w = true) as Hl by (unfold live; by rewrite Hpc).
    pose proof (live_count_insert _ _ _ (WRun k) Hw) as Hlc.
    rewrite Hl in Hlc. unfold live in Hlc. simpl in Hlc.
    destruct I. rewrite ?Hc, ?Hm in *. split; simpl; rewrite ?Hc; try done.
    + by rewrite fmap_feed_insert.
    + apply Forall_insert; [done|]. simpl. by eapply (Forall_lookup_1 _ _ _ _ inv_resolve0).
    + rewrite inv_wg0. simpl. lia.
    + intros j w' Hj. trace_simpl. destruct (decide (i = j)) as [<-|Hne].
      * rewrite list_lookup_insert_eq in Hj by done. simplify_eq.
        destruct (inv_worker0 _ _ Hw) as [Ha Hd]. rewrite Hl in Hd.
        simpl.
        unfold remaining, program, live in *. simpl. rewrite Hpc in *.
        rewrite <- app_assoc. simpl. split; [done|lia].
      * rewrite list_lookup_insert_ne in Hj by done.
        simpl. rewrite ?app_nil_r, ?Nat.add_0_r.
        by apply inv_worker0.
    + intros j Hj. rewrite length_insert in Hj. trace_simpl.
      rewrite decide_False by lia. simpl. rewrite ?app_nil_r, ?Nat.add_0_r.
      by apply inv_unborn0.
    + trace_simpl. simpl in inv_printed0. rewrite app_nil_r in inv_printed0.
      by rewrite inv_printed0.
    + trace_simpl. lia.
    + trace_simpl. lia.
Qed.

Lemma step_Inv feeds t s s' : Inv feeds s -> step t s = Next s' -> Inv feeds s'.
Proof.
  destruct t; simpl; eauto using step_main_Inv, step_sentinel_Inv, step_worker_Inv.
Qed.

Lemma exec_Inv feeds sched s s' : Inv feeds s -> exec sched s = Some s' -> Inv feeds s'.
Proof.
  revert s. induction sched as [|t sched IH]; intros s I H; simplify_eq/=; [done|].
  destruct (step t s) as [| |s1] eqn:Hst; try done.
  eauto using step_Inv.
Qed.

(** Every state a run can be in satisfies the invariant. *)
Lemma reachable_Inv feeds sched s : exec sched (init feeds) = Some s -> Inv feeds s.
Proof. apply exec_Inv, Inv_init. Qed.

(** *** No panic, no deadlock *)

Lemma resolve_is_Some feed : is_Some (ms !! "default") -> is_Some (resolve ms feed).
Proof. intros Hdef. unfold resolve. destruct (ms !! Type_ feed); eauto. Qed.

(** Under the invariant the loop has no nil pointer ahead of it. *)
Lemma Inv_not_nil feeds s rest : Inv feeds s -> main s <> MSpawn (None :: rest).
Proof.
  intros I Hm. pose proof (inv_nonnil _ _ I) as Hnn. rewrite Hm in Hnn.
  unfold todo in Hnn. simpl in Hnn.
  destruct (list_omap (option Feed) Feed id rest); discriminate Hnn.
Qed.

Lemma step_no_panic feeds t s pn :
  is_Some (ms !! "default") -> Inv feeds s -> step t s <> Panic pn.
Proof.
  intros Hdef I. destruct t as [| |i]; simpl.
  - unfold step_main, Display.
    destruct (main s) as [[|[feed|] rest]| | |] eqn:Hm; try done.
    + by destruct (Inv_not_nil _ _ _ I Hm).
    + destruct (closed s); done.
  - unfold step_sentinel. destruct (sentinel s) eqn:Hs; try done.
    + destruct (wg s =? 0)%Z; done.
    + destruct (closed s) eqn:Hc; [|done].
      apply (inv_closed _ _ I) in Hc. congruence.
  - unfold step_worker. destruct (workers s !! i) as [w|] eqn:Hw; [|done].
    destruct (w_pc w) as [|[|[e|r] k]|] eqn:Hpc; try done.
    + pose proof (Forall_lookup_1 _ _ _ _ (inv_resolve _ _ I) Hw) as Hr.
      simpl in Hr. destruct (resolve_is_Some (w_feed w) Hdef) as [m Hm].
      rewrite Hr, Hm. done.
    + destruct (Inv_live_open _ _ i w I Hw) as (_ & Hpos & _).
      { unfold live. by rewrite Hpc. }
      destruct (Z.ltb_spec (wg s - 1) 0); [lia|done].
    + destruct (Inv_live_open _ _ i w I Hw) as (Hc & _).
      { unfold live. by rewrite Hpc. }
      rewrite Hc. destruct (main s); done.
Qed.

Lemma live_count_pos_ex ws :
  0 < live_count ws -> exists i w, ws !! i = Some w /\ live w = true.
Proof.
  induction ws as [|w ws IH]; unfold live_count; simpl; [lia|].
  destruct (live w) eqn:Hl.
  - intros _. by exists 0, w.
  - intros H. destruct IH as (i & w' & Hw & Hl'); [done|]. by exists (S i), w'.
Qed.

(** A worker that has not ended can move once [Display] waits on the open
    channel. *)
Lemma live_worker_moves feeds s i w :
  is_Some (ms !! "default") -> Inv feeds s ->
  workers s !! i = Some w -> live w = true -> main s = MDisplay ->
  exists s', step_worker i s = Next s'.
Proof.
  intros Hdef I Hw Hl Hm.
  destruct (Inv_live_open _ _ _ _ I Hw Hl) as (Hc & Hpos & _).
  unfold step_worker. rewrite Hw. unfold live in Hl.
  destruct (w_pc w) as [|[|[e|r] k]|] eqn:Hpc; try done.
  - pose proof (Forall_lookup_1 _ _ _ _ (inv_resolve _ _ I) Hw) as Hr.
    simpl in Hr. destruct (resolve_is_Some (w_feed w) Hdef) as [m Hmt].
    rewrite Hr, Hmt. eauto.
  - destruct (Z.ltb_spec (wg s - 1) 0); [lia|eauto].
  - eauto.
  - rewrite Hc, Hm. eauto.
Qed.

(** Until [Run] has returned some goroutine can move. *)
Lemma progress feeds s :
  is_Some (ms !! "default") -> Inv feeds s -> main s <> MReturned ->
  exists t s', t ∈ pick s /\ step t s = Next s'.
Proof.
  intros Hdef I Hm.
  assert (TMain ∈ pick s) as HinM.
  { unfold pick. apply elem_of_app. right. repeat constructor. }
  assert (TSentinel ∈ pick s) as HinS.
  { unfold pick. apply elem_of_app. right. repeat constructor. }
  destruct (main s) as [fs| |r|] eqn:Hmain; try done.
  - exists TMain. simpl. unfold step_main, Display. rewrite Hmain.
    destruct fs as [|[feed|] rest]; eauto.
    by destruct (Inv_not_nil _ _ _ I Hmain).
  - destruct (closed s) eqn:Hc.
    { exists TMain. simpl. unfold step_main, Display. rewrite Hmain, Hc. eauto. }
    destruct (sentinel s) eqn:Hs.
    + apply (inv_sentinel _ _ I) in Hs. by rewrite Hmain in Hs.
    + destruct (Z.eqb_spec (wg s) 0) as [H0|Hn0].
      { exists TSentinel. simpl. unfold step_sentinel. rewrite Hs.
        apply Z.eqb_eq in H0. rewrite H0. eauto. }
      pose proof (inv_wg _ _ I) as Hwg. rewrite Hmain in Hwg. simpl in Hwg.
      destruct (live_count_pos_ex (workers s)) as (i & w & Hw & Hl); [lia|].
      destruct (live_worker_moves _ _ _ _ Hdef I Hw Hl Hmain) as [s' Hs'].
      exists (TWorker i), s'. split; [|done].
      unfold pick. apply elem_of_app. left.
      apply list_elem_of_fmap_2, elem_of_seq.
      apply lookup_lt_Some in Hw. lia.
    + exists TSentinel. simpl. unfold step_sentinel. rewrite Hs, Hc. eauto.
    + apply (inv_closed _ _ I) in Hs. congruence.
  - exists TMain. simpl. unfold step_main, Display. rewrite Hmain. eauto.
Qed.

Lemma returned_or_not s : main s = MReturned \/ main s <> MReturned.
Proof. destruct (main s); auto. Qed.

Lemma first_next_Some ts s t s1 :
  t ∈ ts -> step t s = Next s1 ->
  exists t' s', step t' s = Next s' /\ first_next ts s = Some s'.
Proof.
  induction ts as [|t0 ts IH]; intros Hin Hst; [by apply elem_of_nil in Hin|].
  simpl. destruct (step t0 s) as [| |s0] eqn:H0.
  - apply elem_of_cons in Hin as [->|Hin]; [congruence|]. eauto.
  - apply elem_of_cons in Hin as [->|Hin]; [congruence|]. eauto.
  - eauto.
Qed.

(** The scheduler [pick] takes every run to the end: with fuel no less than
    the measure, [Run] has returned, and the moves made form a schedule. *)
Lemma run_fuel_returns feeds fuel s :
  is_Some (ms !! "default") -> Inv feeds s -> measure s <= fuel ->
  main (run_fuel fuel s) = MReturned /\
  exists sched, exec sched s = Some (run_fuel fuel s).
Proof.
  intros Hdef. revert s. induction fuel as [|fuel IH]; intros s I Hle.
  - simpl. split; [|by exists []].
    destruct (returned_or_not s) as [|Hm]; [done|].
    destruct (progress _ _ Hdef I Hm) as (t & s' & _ & Hst).
    apply step_measure in Hst. lia.
  - simpl. destruct (returned_or_not s) as [Hm|Hm].
    + assert (first_next (pick s) s = None) as ->; [|split; [done|by exists []]].
      destruct (first_next (pick s) s) as [s'|] eqn:Hf; [|done].
      exfalso. clear IH Hle. revert Hf.
      assert (forall t, step t s = Blocked) as Hb.
      { pose proof (inv_returned _ _ I Hm) as Hc.
        intros [| |i]; simpl.
        - unfold step_main, Display. by rewrite Hm.
        - unfold step_sentinel. apply (inv_closed _ _ I) in Hc. by rewrite Hc.
        - unfold step_worker. destruct (workers s !! i) as [w|] eqn:Hw; [|done].
          pose proof (Inv_closed_exit _ _ _ _ I Hc Hw) as Hl. unfold live in Hl.
          destruct (w_pc w); done. }
      induction (pick s) as [|t ts IHts]; simpl; [done|]. by rewrite Hb.
    + destruct (progress _ _ Hdef I Hm) as (t & s1 & Hin & Hst).
      destruct (first_next_Some _ _ _ _ Hin Hst) as (t' & s' & Hst' & ->).
      destruct (IH s') as [Hret [sched Hex]].
      { eauto using step_Inv. }
      { apply step_measure in Hst'. lia. }
      split; [done|]. exists (t' :: sched). simpl. by rewrite Hst'.
Qed.

(** *** What a trace says about one worker *)

Lemma from_worker_actions i tr :
  from_worker i (sends tr) = omap sent_of (actions i tr).
Proof.
  unfold from_worker, sends, actions.
  induction tr as [|ev tr IH]; [done|].
  destruct ev as [j e|j r|r|j|]; simpl; try done.
  - destruct (decide (j = i)); simpl; done.
  - rewrite filter_cons. simpl. destruct (decide (j = i)); simpl; [by f_equal|done].
Qed.

Lemma program_newborn w :
  w_matcher w = resolve ms (w_feed w) -> program w = program (newborn (w_feed w)).
Proof. intros Hr. unfold program, newborn. simpl. by rewrite Hr. Qed.

(** The worker of feed number [i] has performed a prefix of its actions, has
    called [Done] at most once, and when [Run] has returned it has performed
    them all and has called [Done]. *)
Lemma Inv_actions feeds s i feed :
  Inv feeds s -> feeds !! i = Some feed ->
  exists k, actions i (trace s) ++ k = program (newborn feed) /\
    dones i (trace s) <= 1 /\
    (main s = MReturned -> k = [] /\ dones i (trace s) = 1).
Proof.
  intros I Hf. rewrite (inv_feeds _ _ I) in Hf.
  destruct (workers s !! i) as [w|] eqn:Hw.
  - rewrite lookup_app_l in Hf.
    2:{ rewrite length_fmap. by eapply lookup_lt_Some. }
    rewrite list_lookup_fmap, Hw in Hf. simplify_eq/=.
    destruct (inv_worker _ _ I _ _ Hw) as [Ha Hd].
    pose proof (Forall_lookup_1 _ _ _ _ (inv_resolve _ _ I) Hw) as Hr. simpl in Hr.
    exists (remaining w). rewrite <- (program_newborn _ Hr).
    split; [done|]. split; [destruct (live w); lia|].
    intros Hm. pose proof (inv_returned _ _ I Hm) as Hc.
    pose proof (Inv_closed_exit _ _ _ _ I Hc Hw) as Hl.
    rewrite Hl in Hd. split; [|done].
    unfold remaining. unfold live in Hl. destruct (w_pc w); done.
  - apply lookup_ge_None_1 in Hw.
    destruct (inv_unborn _ _ I _ Hw) as [Ha Hd].
    exists (program (newborn feed)). rewrite Ha, Hd.
    split; [done|]. split; [lia|].
    intros Hm. rewrite Hm in Hf. simpl in Hf. rewrite app_nil_r in Hf.
    apply lookup_lt_Some in Hf. rewrite length_fmap in Hf. lia.
Qed.

(** Nothing in a trace is attributed to a feed number that does not exist. *)
Lemma Inv_no_stranger feeds s i :
  Inv feeds s -> length feeds <= i -> actions i (trace s) = [].
Proof.
  intros I Hi. apply (inv_unborn _ _ I).
  rewrite (inv_feeds _ _ I), length_app, length_fmap in Hi. lia.
Qed.

(** *** The multiset of what went through the channel *)

Lemma from_worker_cons_concat (j : nat) (r : Result) ds (ixs : list nat) :
  NoDup ixs ->
  concat ((fun i => from_worker i ((j, r) :: ds)) <$> ixs) ≡ₚ
  (if decide (j ∈ ixs) then [r] else []) ++ concat ((fun i => from_worker i ds) <$> ixs).
Proof.
  induction 1 as [|i ixs Hni Hnd IH]; [done|].
  rewrite !fmap_cons. cbn [concat]. rewrite IH.
  unfold from_worker at 1. rewrite filter_cons. cbn [fst].
  destruct (decide (j = i)) as [->|Hne].
  - rewrite (decide_True (P := i ∈ i :: ixs)) by apply list_elem_of_here.
    rewrite (decide_False (P := i ∈ ixs)) by done. done.
  - destruct (decide (j ∈ ixs)) as [Hin|Hnin].
    + rewrite decide_True by (by apply list_elem_of_further).
      fold (from_worker i ds). simpl. by rewrite Permutation_middle.
    + rewrite decide_False; [done|].
      intros [?|?]%elem_of_cons; done.
Qed.

Lemma sends_by_worker (ds : list (nat * Result)) n :
  (forall i, n <= i -> from_worker i ds = []) ->
  ds.*2 ≡ₚ concat ((fun i => from_worker i ds) <$> seq 0 n).
Proof.
  induction ds as [|[j r] ds IH]; intros Hout.
  - simpl. induction (seq 0 n) as [|i ixs IHs]; simpl; done.
  - rewrite from_worker_cons_concat by apply NoDup_seq.
    assert (j < n) as Hj.
    { destruct (decide (j < n)) as [|Hge]; [done|].
      specialize (Hout j). unfold from_worker in Hout. rewrite filter_cons in Hout.
      simpl in Hout. rewrite decide_True in Hout by done.
      simpl in Hout. discriminate Hout. lia. }
    rewrite decide_True by (apply elem_of_seq; lia).
    simpl. apply Permutation_skip. apply IH. intros i Hi.
    specialize (Hout i Hi). unfold from_worker in *. rewrite filter_cons in Hout.
    simpl in Hout. rewrite decide_False in Hout by lia. done.
Qed.

Lemma fmap_seq_lookup {A B} (g : nat -> B) (f : A -> B) (l : list A) :
  (forall i x, l !! i = Some x -> g i = f x) ->
  g <$> seq 0 (length l) = f <$> l.
Proof.
  intros H. apply list_eq. intros i.
  rewrite !list_lookup_fmap.
  destruct (l !! i) as [x|] eqn:Hx; simpl.
  - rewrite lookup_seq_lt by (by eapply lookup_lt_Some). simpl.
    f_equal. by apply H.
  - rewrite lookup_seq_ge; [done|]. by apply lookup_ge_None_1.
Qed.

(** When [Run] has returned, [Display] has printed what went through the
    channel, and that is a rearrangement of what the workers had to forward. *)
Lemma Inv_delivered feeds s :
  Inv feeds s -> main s = MReturned ->
  printed (trace s) = (sends (trace s)).*2 /\
  printed (trace s) ≡ₚ concat (forwarded <$> feeds).
Proof.
  intros I Hm.
  pose proof (inv_printed _ _ I) as Hp. rewrite Hm in Hp. simpl in Hp.
  rewrite app_nil_r in Hp. split; [done|]. rewrite Hp.
  rewrite (sends_by_worker _ (length feeds)).
  - erewrite fmap_seq_lookup; [done|].
    intros i feed Hf. simpl.
    destruct (Inv_actions _ _ _ _ I Hf) as (k & Ha & _ & Hk).
    destruct (Hk Hm) as [-> _]. rewrite app_nil_r in Ha.
    by rewrite from_worker_actions, Ha.
  - intros i Hi. by rewrite from_worker_actions, (Inv_no_stranger _ _ _ I Hi).
Qed.

(** *** Closing the channel *)

Lemma closes_middle pre post :
  closes (pre ++ EvClose :: post) = S (closes pre + closes post).
Proof.
  unfold closes. rewrite omap_app, length_app. simpl.
  rewrite Nat.add_succ_r. reflexivity.
Qed.

Lemma close_unique pre post pre' post' :
  pre ++ EvClose :: post = pre' ++ EvClose :: post' ->
  closes pre = 0 -> closes pre' = 0 -> pre = pre' /\ post = post'.
Proof.
  revert pre'. induction pre as [|ev pre IH]; intros [|ev' pre'] Heq Hz Hz'.
  - by simplify_eq/=.
  - simplify_eq/=.
  - simplify_eq/=.
  - injection Heq as -> Heq.
    assert (closes pre = 0 /\ closes pre' = 0) as [Hp Hp'].
    { unfold closes in *. simpl in *. destruct (close_of ev'); simpl in *; done. }
    destruct (IH _ Heq Hp Hp') as [-> ->]. done.
Qed.

Lemma only_prints post :
  Forall is_print post ->
  sends post = [] /\ all_dones post = 0 /\ closes post = 0 /\
  forall i, actions i post = [].
Proof.
  induction 1 as [|ev post Hev _ IH]; [done|].
  destruct ev; done.
Qed.

(** Wherever a trace shows a close, every worker has called [Done] before
    it, no close precedes it and only prints follow it. *)
Lemma Inv_close_at feeds s pre post :
  Inv feeds s -> trace s = pre ++ EvClose :: post ->
  closed s = true /\ closes pre = 0 /\ all_dones pre = length feeds /\
  Forall is_print post.
Proof.
  intros I Htr.
  pose proof (inv_closes _ _ I) as Hn. rewrite Htr, closes_middle in Hn.
  destruct (closed s) eqn:Hc; [|done].
  destruct (inv_close _ _ I Hc) as (pre0 & post0 & Htr0 & Hd & Hp).
  pose proof (inv_closes _ _ I) as Hn0. rewrite Hc, Htr0, closes_middle in Hn0.
  rewrite Htr in Htr0.
  destruct (close_unique _ _ _ _ Htr0) as [-> ->]; [lia..|].
  repeat split; [lia|done..].
Qed.

(** The one step that changes the channel is the sentinel's [close]. *)
Lemma step_closed t s s' :
  step t s = Next s' ->
  closed s' = closed s \/
  (t = TSentinel /\ sentinel s = SClose /\ closed s = false /\ closed s' = true /\
   trace s' = trace s ++ [EvClose]).
Proof.
  intros H. destruct t as [| |i]; simpl in H.
  - left. unfold step_main, Display in H.
    destruct (main s) as [[|[feed|] rest]| | |]; simplify_eq/=; try done.
    destruct (closed s); simplify_eq/=; done.
  - unfold step_sentinel in H. destruct (sentinel s) eqn:Hs; simplify_eq/=.
    + left. destruct (wg s =? 0)%Z; simplify_eq/=; done.
    + right. destruct (closed s); simplify_eq/=; done.
  - left. unfold step_worker in H.
    destruct (workers s !! i) as [w|]; [|done].
    destruct (w_pc w) as [|[|[e|r] k]|]; simplify_eq/=; try done.
    + destruct (w_matcher w); simplify_eq/=; done.
    + destruct (wg s - 1 <? 0)%Z; simplify_eq/=; done.
    + destruct (closed s); [done|]. destruct (main s); simplify_eq/=; done.
Qed.

End Orchestrator.

(** ** Facts about the registry *)

Lemma Register_keeps feedType matcher p p' tag m :
  Register feedType matcher p = Normal p' ->
  matchers p !! tag = Some m -> matchers p' !! tag = Some m.
Proof.
  unfold Register. intros H Hm.
  destruct (matchers p !! feedType) eqn:Hl; simplify_eq/=.
  rewrite lookup_insert_ne; [done|]. congruence.
Qed.

Lemma register_all_keeps regs p p' tag m :
  register_all regs p = Normal p' ->
  matchers p !! tag = Some m -> matchers p' !! tag = Some m.
Proof.
  revert p. induction regs as [|[feedType matcher] regs IH]; intros p H Hm;
    simplify_eq/=; [done|].
  destruct (Register feedType matcher p) as [|p1] eqn:Hr; [done|].
  eauto using Register_keeps.
Qed.

(** When [main] starts, "default" is bound to the default matcher. *)
Lemma startup_default regs p :
  startup regs = Normal p -> matchers p !! "default" = Some defaultMatcher.
Proof.
  unfold startup. simpl. intros H.
  eapply register_all_keeps; [exact H|]. simpl. apply lookup_insert_eq.
Qed.

Lemma Register_binds feedType matcher p p' :
  Register feedType matcher p = Normal p' ->
  matchers p !! feedType = None /\ matchers p' !! feedType = Some matcher.
Proof.
  unfold Register. intros H.
  destruct (matchers p !! feedType) eqn:Hl; simplify_eq/=.
  split; [done|]. apply lookup_insert_eq.
Qed.

Lemma Register_bound feedType matcher p m :
  matchers p !! feedType = Some m ->
  Register feedType matcher p = Fatal (feedType +:+ " Matcher already registered").
Proof. unfold Register. by intros ->. Qed.

Lemma register_all_app regs regs' p :
  register_all (regs ++ regs') p =
  match register_all regs p with
  | Fatal msg => Fatal msg
  | Normal p' => register_all regs' p'
  end.
Proof.
  revert p. induction regs as [|[feedType matcher] regs IH]; intros p; simpl; [done|].
  destruct (Register feedType matcher p); [done|]. apply IH.
Qed.

(** ** The claims *)

(** C2.  A call of [Register] with a type tag that is already bound ends the
    process with the message "<tag> Matcher already registered" and returns no
    registry; whatever registrations the process goes on to survive, the tag
    stays bound to the first matcher, and a batch of registrations that
    reaches a second one for the tag does not survive. *)
Theorem Register_duplicate_fatal feedType (m m' : Matcher) (p : proc) :
  matchers p !! feedType = Some m ->
  Register feedType m' p = Fatal (feedType +:+ " Matcher already registered") /\
  (forall regs p', register_all regs p = Normal p' ->
     matchers p' !! feedType = Some m) /\
  (forall regs regs', exists msg,
     register_all (regs ++ (feedType, m') :: regs') p = Fatal msg).
Proof.
  intros Hm. split; [by eapply Register_bound|]. split.
  - intros regs p' H. by eapply register_all_keeps.
  - intros regs regs'. rewrite register_all_app.
    destruct (register_all regs p) as [msg|p1] eqn:H1; [by exists msg|].
    simpl. erewrite Register_bound; [by eexists|].
    by eapply register_all_keeps.
Qed.

Lemma Register_duplicate_fatal_witness :
  matchers sample_proc !! "rss" = Some rssMatcher /\
  Register "rss" defaultMatcher sample_proc = Fatal "rss Matcher already registered" /\
  startup (sample_regs ++ [("rss", defaultMatcher)]) = Fatal "rss Matcher already registered".
Proof.
  assert (matchers sample_proc !! "rss" = Some rssMatcher) as H by reflexivity.
  split; [exact H|].
  split; [exact (proj1 (Register_duplicate_fatal "rss" rssMatcher defaultMatcher sample_proc H))|].
  reflexivity.
Defined.

Lemma startup_is_Some regs p :
  startup regs = Normal p -> is_Some (matchers p !! "default").
Proof. intros H. rewrite (startup_default _ _ H). by eexists. Qed.

Lemma omap_sent_send (rs : list Result) : omap sent_of (ASend <$> rs) = rs.
Proof. induction rs as [|r rs IH]; simpl; [done|]. by f_equal. Qed.

Lemma Match_failure m feed searchTerm rs e :
  Search m feed searchTerm = (rs, Some e) -> Match m feed searchTerm = [ALog e].
Proof. unfold Match. by intros ->. Qed.

Lemma Match_success m feed searchTerm rs :
  Search m feed searchTerm = (rs, None) -> Match m feed searchTerm = ASend <$> rs.
Proof. unfold Match. by intros ->. Qed.

Lemma program_resolved ms searchTerm feed m :
  resolve ms feed = Some m ->
  program searchTerm (newborn ms feed) = Match m feed searchTerm.
Proof. unfold program, newborn. simpl. by intros ->. Qed.

Lemma forwarded_resolved ms searchTerm feed m rs err :
  resolve ms feed = Some m -> Search m feed searchTerm = (rs, err) ->
  forwarded ms searchTerm feed = match err with Some _ => [] | None => rs end.
Proof.
  intros Hr Hs. unfold forwarded. rewrite (program_resolved _ _ _ _ Hr).
  destruct err as [e|].
  - by rewrite (Match_failure _ _ _ _ _ Hs).
  - by rewrite (Match_success _ _ _ _ Hs), omap_sent_send.
Qed.

Lemma from_worker_nil_notin i (ds : list (nat * Result)) j r :
  from_worker i ds = [] -> (j, r) ∈ ds -> j <> i.
Proof.
  unfold from_worker. intros Hn Hin ->.
  apply fmap_nil_inv in Hn.
  assert ((i, r) ∈ filter (fun d => d.1 = i) ds) as Hf.
  { apply list_elem_of_filter. done. }
  rewrite Hn in Hf. by apply elem_of_nil in Hf.
Qed.

Lemma logged_in_trace i e tr : ALog e ∈ actions i tr -> EvLog i e ∈ tr.
Proof.
  unfold actions. intros (ev & Hin & Hev)%list_elem_of_omap.
  destruct ev as [j e'|j r|r|j|]; simpl in Hev; try done.
  - destruct (decide (j = i)); simplify_eq. done.
  - destruct (decide (j = i)); simplify_eq.
Qed.

(** What worker [i] has sent so far is a prefix of what it has to forward. *)
Lemma sent_prefix ms searchTerm feeds s i feed :
  Inv ms searchTerm feeds s -> feeds !! i = Some feed ->
  from_worker i (sends (trace s)) `prefix_of` forwarded ms searchTerm feed /\
  (main s = MReturned ->
   from_worker i (sends (trace s)) = forwarded ms searchTerm feed).
Proof.
  intros I Hf.
  destruct (Inv_actions _ _ _ _ _ _ I Hf) as (k & Ha & _ & Hk).
  rewrite from_worker_actions. unfold forwarded. rewrite <- Ha, omap_app.
  split; [by eexists|].
  intros Hm. destruct (Hk Hm) as [-> _]. simpl. by rewrite app_nil_r.
Qed.

(** C6.  When no matcher is registered for a feed's type, line 34 of [Run]
    hands the worker the default matcher; its [Search] returns no result and
    no error for every feed and term, so [Match] does nothing, and in every
    run the worker of that feed neither sends nor logs anything, nor
    panics. *)
Theorem fallback_to_default regs p searchTerm feeds i feed :
  startup regs = Normal p ->
  feeds !! i = Some feed ->
  matchers p !! Type_ feed = None ->
  resolve (matchers p) feed = Some defaultMatcher /\
  (forall s rest, main s = MSpawn (Some feed :: rest) ->
     exists s', step (matchers p) searchTerm TMain s = Next s' /\
       workers s' = workers s ++ [Worker (Some defaultMatcher) feed WStart]) /\
  (forall feed' term', Search defaultMatcher feed' term' = ([], None)) /\
  Match defaultMatcher feed searchTerm = [] /\
  forwarded (matchers p) searchTerm feed = [] /\
  (forall sched s, exec (matchers p) searchTerm sched (init feeds) = Some s ->
     actions i (trace s) = [] /\
     from_worker i (sends (trace s)) = [] /\
     (forall t pn, step (matchers p) searchTerm t s <> Panic pn)).
Proof.
  intros Hst Hf Hty.
  assert (resolve (matchers p) feed = Some defaultMatcher) as Hr.
  { unfold resolve. rewrite Hty. by apply startup_default in Hst. }
  split; [done|]. split.
  { intros s rest Hm. eexists. simpl. unfold step_main, Display. rewrite Hm, Hr.
    split; reflexivity. }
  split; [done|]. split; [done|].
  split. { by rewrite (forwarded_resolved _ _ _ _ [] None Hr). }
  intros sched s Hex.
  pose proof (reachable_Inv _ _ _ _ _ Hex) as I.
  destruct (Inv_actions _ _ _ _ _ _ I Hf) as (k & Ha & _).
  rewrite (program_resolved _ _ _ _ Hr) in Ha.
  apply app_eq_nil in Ha as [Ha _].
  split; [done|]. split; [by rewrite from_worker_actions, Ha|].
  intros t pn. eapply step_no_panic; [by eapply startup_is_Some|done].
Qed.

Lemma fallback_to_default_witness :
  resolve sample_ms feedC = Some defaultMatcher /\
  exists s, exec sample_ms "x" [TMain; TMain; TMain; TWorker 2; TWorker 2]
              (init [feedA; feedB; feedC]) = Some s /\
            actions 2 (trace s) = [] /\ dones 2 (trace s) = 1.
Proof.
  pose proof (fallback_to_default sample_regs sample_proc "x"
    [feedA; feedB; feedC] 2 feedC eq_refl eq_refl eq_refl) as (Hr & _ & _ & _ & _ & Hrun).
  split; [exact Hr|].
  eexists. split; [reflexivity|].
  split; [|reflexivity].
  exact (proj1 (Hrun [TMain; TMain; TMain; TWorker 2; TWorker 2] _ eq_refl)).
Defined.

(** C9.  When [RetrieveFeeds] returns an error, because the file cannot be
    opened or because the decoder failed, [Run] ends the process with that
    error under every schedule: no state is built, so no channel is made and
    no goroutine is started.  A file that cannot be opened gives no feed; a
    file that opens gives what the decoder gives; and when no error comes
    back, [Run] starts from the state built on the whole decoded list. *)
Theorem Run_fatal_on_feed_error os_Open json_Decode ms searchTerm :
  (forall feeds e, RetrieveFeeds os_Open json_Decode = (feeds, Some e) ->
     forall sched, Run os_Open json_Decode ms searchTerm sched = Fatal e) /\
  (forall e, os_Open dataFile = inr e ->
     RetrieveFeeds os_Open json_Decode = ([], Some e)) /\
  (forall file, os_Open dataFile = inl file ->
     RetrieveFeeds os_Open json_Decode = json_Decode file) /\
  (forall feeds, RetrieveFeeds os_Open json_Decode = (feeds, None) ->
     (exists file, os_Open dataFile = inl file /\ json_Decode file = (feeds, None)) /\
     forall sched, Run os_Open json_Decode ms searchTerm sched =
                   Normal (exec ms searchTerm sched (start feeds))).
Proof.
  unfold Run, RetrieveFeeds. repeat split.
  - intros feeds e H sched. by rewrite H.
  - by intros e ->.
  - intros file ->. by destruct (json_Decode file).
  - destruct (os_Open dataFile) as [file|e]; [|done].
    exists file. split; [done|]. by destruct (json_Decode file).
  - intros sched. by rewrite H.
Qed.

Lemma Run_fatal_on_feed_error_witness :
  Run sample_denied sample_decode sample_ms "x" [TMain] =
    Fatal "open data/data.json: permission denied" /\
  Run sample_truncated sample_decode sample_ms "x" [TMain] =
    Fatal "unexpected end of JSON input" /\
  RetrieveFeeds sample_open sample_decode =
    ([Some feedA; Some feedB; Some feedC], None).
Proof.
  destruct (Run_fatal_on_feed_error sample_denied sample_decode sample_ms "x")
    as (Hfatal & _).
  destruct (Run_fatal_on_feed_error sample_truncated sample_decode sample_ms "x")
    as (Hfatal' & _).
  split; [exact (Hfatal [] _ eq_refl [TMain])|].
  split; [exact (Hfatal' [Some feedA] _ eq_refl [TMain])|].
  reflexivity.
Defined.

Lemma prefix_of_log_sends_nothing (l k : list action) e :
  l ++ k = [ALog e] -> omap sent_of l = [].
Proof.
  intros H. assert (omap sent_of (l ++ k) = []) as Hn by (by rewrite H).
  rewrite omap_app in Hn. by apply app_eq_nil in Hn as [? _].
Qed.

(** C10.  When [Search] returns an error together with results, [Match] logs
    the error and returns at line 24: none of the results reaches the channel,
    at no moment of any run. *)
Theorem error_discards_results ms searchTerm feeds i feed m rs e :
  feeds !! i = Some feed ->
  resolve ms feed = Some m ->
  Search m feed searchTerm = (rs, Some e) ->
  rs <> [] ->
  Match m feed searchTerm = [ALog e] /\
  omap sent_of (Match m feed searchTerm) = [] /\
  forwarded ms searchTerm feed = [] /\
  (forall sched s, exec ms searchTerm sched (init feeds) = Some s ->
     from_worker i (sends (trace s)) = [] /\
     (forall j r, (j, r) ∈ sends (trace s) -> j <> i)).
Proof.
  intros Hf Hr Hs _.
  pose proof (Match_failure _ _ _ _ _ Hs) as HM.
  split; [done|]. split; [by rewrite HM|].
  split; [by rewrite (forwarded_resolved _ _ _ _ _ _ Hr Hs)|].
  intros sched s Hex.
  pose proof (reachable_Inv _ _ _ _ _ Hex) as I.
  destruct (Inv_actions _ _ _ _ _ _ I Hf) as (k & Ha & _).
  rewrite (program_resolved _ _ _ _ Hr), HM in Ha.
  assert (from_worker i (sends (trace s)) = []) as Hn.
  { rewrite from_worker_actions. by eapply prefix_of_log_sends_nothing. }
  split; [done|]. intros j r. by apply from_worker_nil_notin.
Qed.

Lemma error_discards_results_witness :
  Search rssMatcher feedB "x" = ([stale], Some "fetch failed") /\
  Match rssMatcher feedB "x" = [ALog "fetch failed"] /\
  exists s, exec sample_ms "x" [TMain; TMain; TWorker 1; TWorker 1; TWorker 1]
              (init [feedA; feedB]) = Some s /\
            from_worker 1 (sends (trace s)) = [].
Proof.
  assert ([stale] <> []) as Hne by discriminate.
  pose proof (error_discards_results sample_ms "x" [feedA; feedB] 1 feedB
    rssMatcher [stale] "fetch failed" eq_refl eq_refl eq_refl Hne) as (HM & _ & _ & Hrun).
  split; [reflexivity|]. split; [exact HM|].
  eexists. split; [reflexivity|].
  exact (proj1 (Hrun [TMain; TMain; TWorker 1; TWorker 1; TWorker 1] _ eq_refl)).
Defined.

(** The scheduler [pick] takes a run from its first state to the return of
    [Run]. *)
Lemma run_to_end regs p searchTerm feeds :
  startup regs = Normal p ->
  main (run_fuel (matchers p) searchTerm
          (measure (matchers p) searchTerm (init feeds)) (init feeds)) = MReturned /\
  exists sched, exec (matchers p) searchTerm sched (init feeds) =
    Some (run_fuel (matchers p) searchTerm
            (measure (matchers p) searchTerm (init feeds)) (init feeds)).
Proof.
  intros Hst. apply (run_fuel_returns _ _ feeds).
  - by eapply startup_is_Some.
  - apply Inv_init.
  - done.
Qed.

(** In a reachable state nothing panics, and unless [Run] has returned some
    goroutine can move. *)
Lemma safe_and_live regs p searchTerm feeds s :
  startup regs = Normal p -> Inv (matchers p) searchTerm feeds s ->
  (forall t pn, step (matchers p) searchTerm t s <> Panic pn) /\
  (main s = MReturned \/ exists t s', step (matchers p) searchTerm t s = Next s').
Proof.
  intros Hst I. apply startup_is_Some in Hst. split.
  - intros t pn. by eapply step_no_panic.
  - destruct (returned_or_not s) as [|Hm]; [by left|right].
    destruct (progress _ _ _ _ Hst I Hm) as (t & s' & _ & H). eauto.
Qed.

Lemma no_feeds_nothing_sent ms searchTerm s :
  Inv ms searchTerm [] s -> sends (trace s) = [] /\ printed (trace s) = [].
Proof.
  intros I.
  assert (sends (trace s) = []) as Hs.
  { pose proof (sends_by_worker (sends (trace s)) 0) as Hp. simpl in Hp.
    apply (fmap_nil_inv snd). apply Permutation_nil_r. apply Hp.
    intros i _. rewrite from_worker_actions.
    rewrite (Inv_no_stranger _ _ _ _ _ I); [done|]. simpl. lia. }
  split; [done|].
  pose proof (inv_printed _ _ _ _ I) as Hp. rewrite Hs in Hp. simpl in Hp.
  by apply app_eq_nil in Hp as [? _].
Qed.

(** *** A nil entry in the slice *)

Lemma no_nil_fmap (feeds : list (option Feed)) :
  Forall is_Some feeds -> feeds = Some <$> omap id feeds.
Proof.
  induction 1 as [|ptr feeds [feed ->] _ IH]; [done|].
  simpl. f_equal. exact IH.
Qed.

(** While a nil entry is ahead of it, [Run] is in the loop of line 30, so
    that [Display] has not started and no worker can send; a step keeps it
    so. *)
Lemma step_before_nil ms searchTerm t s s' :
  (exists fs, main s = MSpawn fs /\ None ∈ fs) ->
  step ms searchTerm t s = Next s' ->
  (exists fs, main s' = MSpawn fs /\ None ∈ fs) /\
  sends (trace s') = sends (trace s) /\ printed (trace s') = printed (trace s).
Proof.
  intros (fs & Hm & Hin) H. destruct t as [| |i]; simpl in H.
  - unfold step_main, Display in H. rewrite Hm in H.
    destruct fs as [|[feed|] rest]; simplify_eq/=.
    + by apply elem_of_nil in Hin.
    + split; [|done]. exists rest. split; [done|].
      apply elem_of_cons in Hin as [?|?]; done.
  - unfold step_sentinel in H. destruct (sentinel s); simplify_eq/=.
    + destruct (wg s =? 0)%Z; simplify_eq/=. eauto.
    + destruct (closed s); simplify_eq/=.
      unfold sends, printed. rewrite !omap_app. simpl. rewrite !app_nil_r. eauto.
  - unfold step_worker in H.
    destruct (workers s !! i) as [w|]; [|done].
    destruct (w_pc w) as [|[|[e|r] k]|]; simplify_eq/=.
    + destruct (w_matcher w); simplify_eq/=. eauto.
    + destruct (wg s - 1 <? 0)%Z; simplify_eq/=.
      unfold sends, printed. rewrite !omap_app. simpl. rewrite !app_nil_r. eauto.
    + unfold sends, printed. rewrite !omap_app. simpl. rewrite !app_nil_r. eauto.
    + destruct (closed s); [done|]. rewrite Hm in H. done.
Qed.

(** A run over a slice with a nil entry never reaches [Display]: nothing is
    sent, nothing is printed and [Run] does not return. *)
Lemma nil_entry_never_displays ms searchTerm feeds sched s :
  None ∈ feeds ->
  exec ms searchTerm sched (start feeds) = Some s ->
  (exists fs, main s = MSpawn fs /\ None ∈ fs) /\
  sends (trace s) = [] /\ printed (trace s) = [] /\ main s <> MReturned.
Proof.
  intros Hin.
  assert (forall s0,
    (exists fs, main s0 = MSpawn fs /\ None ∈ fs) ->
    sends (trace s0) = [] -> printed (trace s0) = [] ->
    exec ms searchTerm sched s0 = Some s ->
    (exists fs, main s = MSpawn fs /\ None ∈ fs) /\
    sends (trace s) = [] /\ printed (trace s) = []) as Hgen.
  { induction sched as [|t sched IH]; intros s0 Hm Hs Hp H; simplify_eq/=; [done|].
    destruct (step ms searchTerm t s0) as [| |s1] eqn:Hst; try done.
    destruct (step_before_nil _ _ _ _ _ Hm Hst) as (Hm1 & Hs1 & Hp1).
    apply (IH s1); [done|congruence|congruence|done]. }
  intros Hex. destruct (Hgen (start feeds)) as ((fs & Hm & Hfs) & Hs & Hp); eauto.
  repeat split; eauto. rewrite Hm. done.
Qed.

(** C1.  With a feed list loaded that has no nil entry, whatever it holds
    and whatever the matchers return: every schedule of [Run] is shorter than
    a bound computed from the first state, in none of its states does any
    goroutine panic, and in each of them either [Run] (and so the loop of
    [Display]) has returned or some goroutine can move on; the scheduler
    [pick] reaches the return within the bound.  With no feed the counter
    starts at zero, the four steps "start the sentinel, [Wait] returns,
    [close], [Display] leaves its loop" end the run, and no run sends or
    prints anything. *)
Theorem Run_terminates os_Open json_Decode regs p searchTerm feeds :
  startup regs = Normal p ->
  RetrieveFeeds os_Open json_Decode = (feeds, None) ->
  Forall is_Some feeds ->
  (forall sched s,
     Run os_Open json_Decode (matchers p) searchTerm sched = Normal (Some s) ->
     length sched <= measure (matchers p) searchTerm (start feeds) /\
     (forall t pn, step (matchers p) searchTerm t s <> Panic pn) /\
     (main s = MReturned \/
      exists t s', step (matchers p) searchTerm t s = Next s' /\
        Run os_Open json_Decode (matchers p) searchTerm (sched ++ [t]) =
          Normal (Some s'))) /\
  (exists sched,
     Run os_Open json_Decode (matchers p) searchTerm sched =
       Normal (Some (run_fuel (matchers p) searchTerm
                       (measure (matchers p) searchTerm (start feeds)) (start feeds)))) /\
  main (run_fuel (matchers p) searchTerm
          (measure (matchers p) searchTerm (start feeds)) (start feeds)) = MReturned /\
  (feeds = [] ->
     wg (start feeds) = 0%Z /\
     Run os_Open json_Decode (matchers p) searchTerm
       [TMain; TSentinel; TSentinel; TMain] =
       Normal (Some {| main := MReturned; workers := []; sentinel := SExit;
                       wg := 0; closed := true; trace := [EvClose] |}) /\
     forall sched s,
       Run os_Open json_Decode (matchers p) searchTerm sched = Normal (Some s) ->
       sends (trace s) = [] /\ printed (trace s) = []).
Proof.
  intros Hst Hfeeds Hnonnil.
  assert (forall sched, Run os_Open json_Decode (matchers p) searchTerm sched =
            Normal (exec (matchers p) searchTerm sched (start feeds))) as HRun.
  { intros sched. unfold Run. by rewrite Hfeeds. }
  assert (start feeds = init (omap id feeds)) as Hinit.
  { unfold init. by rewrite <- no_nil_fmap. }
  rewrite Hinit in *.
  destruct (run_to_end regs p searchTerm (omap id feeds) Hst) as [Hend [sched0 Hsched0]].
  split; [|split; [|split]].
  - intros sched s Hs. rewrite HRun in Hs. injection Hs as Hex.
    pose proof (reachable_Inv _ _ _ _ _ Hex) as I.
    split. { pose proof (exec_measure _ _ _ _ _ Hex). lia. }
    destruct (safe_and_live _ _ _ _ _ Hst I) as [Hsafe Hlive].
    split; [done|]. destruct Hlive as [|(t & s' & Ht)]; [by left|right].
    exists t, s'. split; [done|].
    rewrite HRun, exec_app, Hex. simpl. by rewrite Ht.
  - exists sched0. by rewrite HRun, Hsched0.
  - done.
  - intros ->. split; [done|]. split; [by rewrite HRun|].
    intros sched s Hs. rewrite HRun in Hs. injection Hs as Hex.
    apply (no_feeds_nothing_sent (matchers p) searchTerm).
    by eapply reachable_Inv.
Qed.

Lemma Run_terminates_witness :
  main (run_fuel sample_ms "x"
          (measure sample_ms "x" (start [Some feedA; Some feedB; Some feedC]))
          (start [Some feedA; Some feedB; Some feedC])) = MReturned /\
  measure sample_ms "x" (start [Some feedA; Some feedB; Some feedC]) = 16.
Proof.
  assert (Forall is_Some [Some feedA; Some feedB; Some feedC]) as Hnonnil.
  { repeat (constructor; [by eexists|]). constructor. }
  split; [|reflexivity].
  exact (proj1 (proj2 (proj2 (Run_terminates sample_open sample_decode sample_regs
    sample_proc "x" [Some feedA; Some feedB; Some feedC] eq_refl eq_refl Hnonnil)))).
Defined.

(** The data file "[null]": the decoder stores one nil pointer and returns no
    error, the registry is the one the initialisation builds, and the first
    step of [Run]'s loop is the panic of line 32; no schedule takes [Run] to
    its return. *)
Lemma Run_terminates_counterexample :
  startup sample_regs = Normal sample_proc /\
  RetrieveFeeds null_open null_decode = ([None], None) /\
  Run null_open null_decode (matchers sample_proc) "x" [] =
    Normal (Some (start [None])) /\
  step (matchers sample_proc) "x" TMain (start [None]) = Panic NilFeed /\
  (forall sched s,
     Run null_open null_decode (matchers sample_proc) "x" sched = Normal (Some s) ->
     main s <> MReturned).
Proof.
  split; [reflexivity|]. split; [reflexivity|]. split; [reflexivity|].
  split; [reflexivity|].
  intros sched s Hs.
  change (Normal (exec sample_ms "x" sched (start [None])) = Normal (Some s)) in Hs.
  injection Hs as Hex.
  apply (nil_entry_never_displays sample_ms "x" [None] sched s); [|done].
  apply list_elem_of_here.
Qed.

(** C3.  When the [Search] of a feed's matcher fails, [Match] logs the error
    and returns.  In every state of every run the worker of that feed has sent
    nothing, no goroutine panics, some goroutine can move unless [Run] has
    returned, and what [Display] holds or has printed is what went through the
    channel, where nothing comes from that worker.  When [Run] has returned
    the error is in the log and the printed results are those of the other
    feeds; and [Run] does return. *)
Theorem failed_search_is_logged_only regs p searchTerm feeds i feed m rs e :
  startup regs = Normal p ->
  feeds !! i = Some feed ->
  resolve (matchers p) feed = Some m ->
  Search m feed searchTerm = (rs, Some e) ->
  Match m feed searchTerm = [ALog e] /\
  forwarded (matchers p) searchTerm feed = [] /\
  (forall sched s, exec (matchers p) searchTerm sched (init feeds) = Some s ->
     from_worker i (sends (trace s)) = [] /\
     (forall j r, (j, r) ∈ sends (trace s) -> j <> i) /\
     printed (trace s) ++ pending (main s) = (sends (trace s)).*2 /\
     (forall t pn, step (matchers p) searchTerm t s <> Panic pn) /\
     (main s = MReturned \/ exists t s', step (matchers p) searchTerm t s = Next s') /\
     (main s = MReturned ->
        actions i (trace s) = [ALog e] /\ EvLog i e ∈ trace s /\
        printed (trace s) ≡ₚ concat (forwarded (matchers p) searchTerm <$> feeds))) /\
  main (run_fuel (matchers p) searchTerm
          (measure (matchers p) searchTerm (init feeds)) (init feeds)) = MReturned.
Proof.
  intros Hst Hf Hr Hs.
  pose proof (Match_failure _ _ _ _ _ Hs) as HM.
  split; [done|].
  split; [by rewrite (forwarded_resolved _ _ _ _ _ _ Hr Hs)|].
  split; [|by apply (run_to_end regs)].
  intros sched s Hex.
  pose proof (reachable_Inv _ _ _ _ _ Hex) as I.
  destruct (Inv_actions _ _ _ _ _ _ I Hf) as (k & Ha & _ & Hk).
  rewrite (program_resolved _ _ _ _ Hr), HM in Ha.
  assert (from_worker i (sends (trace s)) = []) as Hn.
  { rewrite from_worker_actions. by eapply prefix_of_log_sends_nothing. }
  destruct (safe_and_live _ _ _ _ _ Hst I) as [Hsafe Hlive].
  split; [done|]. split; [intros j r; by apply from_worker_nil_notin|].
  split; [by apply (inv_printed _ _ _ _ I)|].
  split; [done|]. split; [done|].
  intros Hm. destruct (Hk Hm) as [-> _]. rewrite app_nil_r in Ha.
  split; [done|]. split.
  - apply logged_in_trace. rewrite Ha. apply list_elem_of_here.
  - by apply (Inv_delivered _ _ _ _ I).
Qed.

Lemma failed_search_is_logged_only_witness :
  exec sample_ms "x" sample_sched (init [feedA; feedB]) = Some sample_final /\
  printed (trace sample_final) = [found] /\
  EvLog 1 "fetch failed" ∈ trace sample_final /\
  from_worker 1 (sends (trace sample_final)) = [].
Proof.
  assert (exec sample_ms "x" sample_sched (init [feedA; feedB]) = Some sample_final)
    as Hex by (vm_compute; reflexivity).
  pose proof (failed_search_is_logged_only sample_regs sample_proc "x"
    [feedA; feedB] 1 feedB rssMatcher [stale] "fetch failed"
    eq_refl eq_refl eq_refl eq_refl) as (_ & _ & Hrun & _).
  destruct (Hrun sample_sched sample_final Hex) as (Hnone & _ & _ & _ & _ & Hend).
  split; [exact Hex|]. split; [reflexivity|].
  split; [exact (proj1 (proj2 (Hend eq_refl)))|exact Hnone].
Defined.



(** C5.  In every state of every run: the trace holds one close when the
    channel is closed and none when it is open; a step that changes the
    channel is the sentinel's, taken with the counter at zero, no feed left to
    start, no worker alive and every worker's [Done] in the trace; no close of
    a closed channel and no send on a closed channel can happen; and wherever
    the trace shows the close, no close comes before it, every [Done] comes
    before it, and neither a send nor a [Done] nor a close comes after it.
    When [Run] has returned the channel has been closed once. *)
Theorem sentinel_sole_closer regs p searchTerm feeds sched s :
  startup regs = Normal p ->
  exec (matchers p) searchTerm sched (init feeds) = Some s ->
  closes (trace s) = (if closed s then 1 else 0) /\
  (forall t s', step (matchers p) searchTerm t s = Next s' ->
     closed s' <> closed s ->
     t = TSentinel /\ closed s = false /\ closed s' = true /\
     wg s = 0%Z /\ todo (main s) = [] /\ live_count (workers s) = 0 /\
     all_dones (trace s) = length feeds) /\
  (forall t, step (matchers p) searchTerm t s <> Panic CloseOfClosed /\
             step (matchers p) searchTerm t s <> Panic SendOnClosed) /\
  (forall pre post, trace s = pre ++ EvClose :: post ->
     closes pre = 0 /\ all_dones pre = length feeds /\
     closes post = 0 /\ sends post = [] /\ all_dones post = 0) /\
  (main s = MReturned -> closed s = true /\ closes (trace s) = 1).
Proof.
  intros Hst Hex.
  pose proof (reachable_Inv _ _ _ _ _ Hex) as I.
  destruct (safe_and_live _ _ _ _ _ Hst I) as [Hsafe _].
  split; [by apply (inv_closes _ _ _ _ I)|].
  split; [|split; [|split]].
  - intros t s' Hstep Hch.
    destruct (step_closed _ _ _ _ _ Hstep) as [|(-> & Hs & Hc & Hc' & _)]; [done|].
    assert (wg s = 0%Z) as H0 by (apply (inv_waited _ _ _ _ I); by left).
    pose proof (inv_wg _ _ _ _ I) as Hwg.
    pose proof (inv_dones _ _ _ _ I) as Hd.
    repeat split; try done.
    + destruct (todo (main s)); [done|]. simpl in Hwg. lia.
    + lia.
    + lia.
  - intros t. split; apply Hsafe.
  - intros pre post Htr.
    destruct (Inv_close_at _ _ _ _ _ _ I Htr) as (_ & Hpre & Hd & Hp).
    destruct (only_prints _ Hp) as (? & ? & ? & _). done.
  - intros Hm. pose proof (inv_returned _ _ _ _ I Hm) as Hc.
    split; [done|]. by rewrite (inv_closes _ _ _ _ I), Hc.
Qed.

Lemma sentinel_sole_closer_witness :
  exec sample_ms "x" sample_sched (init [feedA; feedB]) = Some sample_final /\
  closes (trace sample_final) = 1 /\
  all_dones [EvLog 1 "fetch failed"; EvSend 0 found; EvPrint found;
             EvDone 1; EvDone 0] = 2.
Proof.
  assert (exec sample_ms "x" sample_sched (init [feedA; feedB]) = Some sample_final)
    as Hex by (vm_compute; reflexivity).
  destruct (sentinel_sole_closer sample_regs sample_proc "x" [feedA; feedB]
    sample_sched sample_final eq_refl Hex) as (_ & _ & _ & Hat & Hend).
  split; [exact Hex|]. split; [exact (proj2 (Hend eq_refl))|].
  exact (proj1 (proj2 (Hat [EvLog 1 "fetch failed"; EvSend 0 found; EvPrint found;
                             EvDone 1; EvDone 0] [] eq_refl))).
Defined.



(** C8.  On a feed list without a nil entry, whatever matchers fail: a run
    takes no more steps than the bound, none of its states panics, and from
    each of its states some schedule goes on to the return of [Run].  When
    [Run] has returned, what [Display] has printed is a rearrangement of the
    results of all the feeds whose [Search] succeeded, each feed's results
    being those its worker passed through the channel, in order; a feed whose
    [Search] failed contributes nothing and takes nothing away from the
    others. *)
Theorem successful_results_all_delivered regs p searchTerm feeds :
  startup regs = Normal p ->
  (exists sched s, exec (matchers p) searchTerm sched (init feeds) = Some s /\
     main s = MReturned) /\
  (forall sched s, exec (matchers p) searchTerm sched (init feeds) = Some s ->
     length sched <= measure (matchers p) searchTerm (init feeds) /\
     (forall t pn, step (matchers p) searchTerm t s <> Panic pn) /\
     (exists sched' s',
        exec (matchers p) searchTerm (sched ++ sched') (init feeds) = Some s' /\
        main s' = MReturned) /\
     (main s = MReturned ->
        printed (trace s) ≡ₚ concat (forwarded (matchers p) searchTerm <$> feeds) /\
        (forall j feed m rs err,
           feeds !! j = Some feed -> resolve (matchers p) feed = Some m ->
           Search m feed searchTerm = (rs, err) ->
           forwarded (matchers p) searchTerm feed =
             match err with Some _ => [] | None => rs end /\
           from_worker j (sends (trace s)) = forwarded (matchers p) searchTerm feed) /\
        printed (trace s) = (sends (trace s)).*2)).
Proof.
  intros Hst.
  assert (forall sched s, exec (matchers p) searchTerm sched (init feeds) = Some s ->
            exists sched' s',
              exec (matchers p) searchTerm (sched ++ sched') (init feeds) = Some s' /\
              main s' = MReturned) as Hon.
  { intros sched s Hex.
    pose proof (reachable_Inv _ _ _ _ _ Hex) as I.
    destruct (run_fuel_returns (matchers p) searchTerm feeds
                (measure (matchers p) searchTerm s) s) as [Hret [sched' Hex']];
      [by eapply startup_is_Some|done|done|].
    exists sched', (run_fuel (matchers p) searchTerm (measure (matchers p) searchTerm s) s).
    split; [|done]. by rewrite exec_app, Hex. }
  split.
  { destruct (Hon [] (init feeds) eq_refl) as (sched' & s' & Hex' & Hret). eauto. }
  intros sched s Hex.
  pose proof (reachable_Inv _ _ _ _ _ Hex) as I.
  split. { pose proof (exec_measure _ _ _ _ _ Hex). lia. }
  split. { exact (proj1 (safe_and_live regs p searchTerm feeds s Hst I)). }
  split; [exact (Hon sched s Hex)|].
  intros Hm. destruct (Inv_delivered _ _ _ _ I Hm) as [Heq Hperm].
  split; [done|]. split; [|done].
  intros j feed m rs err Hf Hr Hs.
  split; [by apply (forwarded_resolved _ _ _ _ _ _ Hr Hs)|].
  by apply (sent_prefix _ _ _ _ _ _ I Hf).
Qed.

Lemma successful_results_all_delivered_witness :
  exec sample_ms "x" sample_sched (init [feedA; feedB]) = Some sample_final /\
  printed (trace sample_final) ≡ₚ [found] /\
  forwarded sample_ms "x" feedB = [] /\
  (exists sched' s',
     exec sample_ms "x" ([TMain; TMain; TWorker 1] ++ sched') (init [feedA; feedB]) =
       Some s' /\ main s' = MReturned).
Proof.
  assert (exec sample_ms "x" sample_sched (init [feedA; feedB]) = Some sample_final)
    as Hex by (vm_compute; reflexivity).
  destruct (successful_results_all_delivered sample_regs sample_proc "x"
    [feedA; feedB] eq_refl) as (_ & Hrun).
  destruct (Hrun sample_sched sample_final Hex) as (_ & _ & _ & Hend).
  destruct (Hend eq_refl) as (Hperm & _).
  split; [exact Hex|]. split; [exact Hperm|]. split; [reflexivity|].
  exact (proj1 (proj2 (proj2 (Hrun [TMain; TMain; TWorker 1] _ eq_refl)))).
Defined.

(** The feeds A and B followed by a nil entry, B's search failing and A's
    succeeding with one result: after the goroutines of A and B are started
    [Run] panics at line 32, and in no state of any run has [Display] printed
    A's result, or anything. *)
Lemma successful_results_all_delivered_counterexample :
  startup sample_regs = Normal sample_proc /\
  RetrieveFeeds null_last_open null_decode = ([Some feedA; Some feedB; None], None) /\
  Search rssMatcher feedB "x" = ([stale], Some "fetch failed") /\
  Search rssMatcher feedA "x" = ([found], None) /\
  (exists s, exec (matchers sample_proc) "x" [TMain; TMain]
               (start [Some feedA; Some feedB; None]) = Some s /\
             step (matchers sample_proc) "x" TMain s = Panic NilFeed) /\
  (forall sched s,
     exec (matchers sample_proc) "x" sched (start [Some feedA; Some feedB; None]) = Some s ->
     printed (trace s) = [] /\ main s <> MReturned).
Proof.
  split; [reflexivity|]. split; [reflexivity|]. split; [reflexivity|].
  split; [reflexivity|]. split.
  { eexists. split; reflexivity. }
  intros sched s Hex.
  destruct (nil_entry_never_displays sample_ms "x" [Some feedA; Some feedB; None]
              sched s) as (_ & _ & Hp & Hm); [|exact Hex|done].
  apply list_elem_of_further, list_elem_of_further, list_elem_of_here.
Qed.

(** ** The scenarios of the specification, run with the scheduler [pick] *)

(** One feed of type "default": the run completes and nothing is printed. *)
Example scenario_default_feed :
  let s := run_fuel sample_ms "x" (measure sample_ms "x" (init [feedD])) (init [feedD]) in
  main s = MReturned /\ printed (trace s) = [] /\
  trace s = [EvDone 0; EvClose].
Proof. vm_compute. repeat split. Qed.

(** Feeds A and B of type "rss", the matcher failing on B: one result is
    printed, the failure is logged, the run completes. *)
Example scenario_one_failure :
  let s := run_fuel sample_ms "x" (measure sample_ms "x" (init [feedA; feedB]))
             (init [feedA; feedB]) in
  main s = MReturned /\ printed (trace s) = [found] /\
  omap logged_of (actions 1 (trace s)) = ["fetch failed"].
Proof. vm_compute. repeat split. Qed.

(** Two registrations of "rss": the process ends before [main] starts. *)
Example scenario_double_registration :
  startup [("rss", rssMatcher); ("rss", rssMatcher)] =
    Fatal "rss Matcher already registered".
Proof. reflexivity. Qed.

(** The registry the sample runs use is the one the initialisation builds. *)
Example sample_startup : startup sample_regs = Normal sample_proc.
Proof. reflexivity. Qed.

(** No feed: four steps and the run is over. *)
Example scenario_no_feed :
  exec sample_ms "x" [TMain; TSentinel; TSentinel; TMain] (init []) =
    Some {| main := MReturned; workers := []; sentinel := SExit;
            wg := 0; closed := true; trace := [EvClose] |}.
Proof. reflexivity. Qed.

(** ** Further facts about the registry and the run *)

Lemma register_all_cons feedType matcher regs p :
  register_all ((feedType, matcher) :: regs) p =
  match Register feedType matcher p with
  | Fatal msg => Fatal msg
  | Normal p' => register_all regs p'
  end.
Proof. reflexivity. Qed.

Lemma register_all_Normal regs p p' :
  register_all regs p = Normal p' ->
  NoDup regs.*1 /\ Forall (fun tag => matchers p !! tag = None) regs.*1 /\
  matchers p' = list_to_map regs ∪ matchers p /\
  log p' = log p ++ ((fun tag => "Register " +:+ tag +:+ " matcher") <$> regs.*1).
Proof.
  revert p. induction regs as [|[feedType matcher] regs IH]; intros p H.
  - simpl in H. injection H as <-. simpl.
    rewrite (left_id_L ∅ (∪)), app_nil_r. repeat split; constructor.
  - rewrite register_all_cons in H.
    destruct (Register feedType matcher p) as [|p1] eqn:Hr; [done|].
    destruct (Register_binds _ _ _ _ Hr) as [Hfresh Hbound].
    destruct (IH _ H) as (Hnd & Hall & Hms & Hlog).
    assert (feedType ∉ regs.*1) as Hnotin.
    { intros Hin. rewrite Forall_forall in Hall. rewrite (Hall _ Hin) in Hbound. done. }
    unfold Register in Hr. rewrite Hfresh in Hr. injection Hr as <-.
    simpl in *. split; [by constructor|]. split.
    + constructor; [done|]. apply Forall_forall. intros tag Hin.
      rewrite Forall_forall in Hall. specialize (Hall _ Hin).
      rewrite lookup_insert_ne in Hall; [done|]. by intros ->.
    + split.
      * rewrite Hms, <- insert_union_r, insert_union_l; [done|].
        by apply not_elem_of_list_to_map_1.
      * by rewrite Hlog, <- app_assoc.
Qed.

Lemma register_all_fresh regs p :
  NoDup regs.*1 -> Forall (fun tag => matchers p !! tag = None) regs.*1 ->
  exists p', register_all regs p = Normal p'.
Proof.
  revert p. induction regs as [|[feedType matcher] regs IH]; intros p Hnd Hall.
  - by eexists.
  - simpl in Hnd, Hall. apply NoDup_cons in Hnd as [Hnotin Hnd].
    apply Forall_cons in Hall as [Hfresh Hall].
    rewrite register_all_cons. unfold Register. rewrite Hfresh.
    apply IH; [done|]. simpl. apply Forall_forall. intros tag Hin.
    rewrite Forall_forall in Hall.
    rewrite lookup_insert_ne; [by apply Hall|]. by intros ->.
Qed.

Lemma register_all_Fatal regs p msg :
  register_all regs p = Fatal msg ->
  exists tag, tag ∈ regs.*1 /\ msg = tag +:+ " Matcher already registered".
Proof.
  revert p. induction regs as [|[feedType matcher] regs IH]; intros p H; [done|].
  rewrite register_all_cons in H.
  destruct (Register feedType matcher p) as [msg'|p1] eqn:Hr.
  - injection H as <-. exists feedType. split; [apply list_elem_of_here|].
    unfold Register in Hr. destruct (matchers p !! feedType); by simplify_eq.
  - destruct (IH _ H) as (tag & Hin & ->). exists tag.
    split; [by apply list_elem_of_further|done].
Qed.

(** X1.  A sequence of [Register] calls returns from all of them exactly when
    its type tags are pairwise different and none is bound beforehand.  Then
    the registry is the old one extended by every pair of the sequence and the
    log has grown by one line "Register <tag> matcher" per call, in order.
    Otherwise the process ends with the message "<tag> Matcher already
    registered" for one of the tags of the sequence. *)
Theorem register_all_outcome regs p :
  ((exists p', register_all regs p = Normal p') <->
   NoDup regs.*1 /\ Forall (fun tag => matchers p !! tag = None) regs.*1) /\
  (forall p', register_all regs p = Normal p' ->
     matchers p' = list_to_map regs ∪ matchers p /\
     log p' = log p ++ ((fun tag => "Register " +:+ tag +:+ " matcher") <$> regs.*1)) /\
  (forall msg, register_all regs p = Fatal msg ->
     exists tag, tag ∈ regs.*1 /\ msg = tag +:+ " Matcher already registered").
Proof.
  split; [split|split].
  - intros [p' H]. by destruct (register_all_Normal _ _ _ H) as (? & ? & _).
  - intros [Hnd Hall]. by apply register_all_fresh.
  - intros p' H. by destruct (register_all_Normal _ _ _ H) as (_ & _ & ? & ?).
  - apply register_all_Fatal.
Qed.

Lemma register_all_outcome_witness :
  exists p', register_all (("default", defaultMatcher) :: sample_regs) proc0 = Normal p'.
Proof.
  apply (proj1 (register_all_outcome (("default", defaultMatcher) :: sample_regs) proc0)).
  split; [compute_done|]. repeat constructor.
Defined.

(** X2.  In every state of every run the goroutines started so far are bound,
    in order, to the first feeds of the list, each with the matcher that
    [resolve] gives for its feed, and the feeds not yet visited are the rest of
    the list.  Once the sentinel has been started there is exactly one worker
    per feed. *)
Theorem one_worker_per_feed ms searchTerm feeds sched s :
  exec ms searchTerm sched (init feeds) = Some s ->
  (w_feed <$> workers s) ++ todo (main s) = feeds /\
  (forall i w, workers s !! i = Some w ->
     feeds !! i = Some (w_feed w) /\ w_matcher w = resolve ms (w_feed w)) /\
  (sentinel s <> SNotStarted ->
     todo (main s) = [] /\ length (workers s) = length feeds).
Proof.
  intros Hex. pose proof (reachable_Inv _ _ _ _ _ Hex) as I.
  pose proof (inv_feeds _ _ _ _ I) as Hf.
  split; [done|]. split.
  - intros i w Hw. split.
    + rewrite Hf, lookup_app_l.
      * by rewrite list_lookup_fmap, Hw.
      * rewrite length_fmap. by eapply lookup_lt_Some.
    + by apply (Forall_lookup_1 _ _ _ _ (inv_resolve _ _ _ _ I) Hw).
  - intros Hs.
    assert (todo (main s) = []) as Ht.
    { destruct (main s) eqn:Hm; try done.
      destruct Hs. apply (inv_sentinel _ _ _ _ I). by rewrite Hm. }
    split; [done|]. by rewrite Hf, Ht, app_nil_r, length_fmap.
Qed.

Lemma one_worker_per_feed_witness :
  (w_feed <$> workers sample_final) ++ todo (main sample_final) = [feedA; feedB] /\
  length (workers sample_final) = 2.
Proof.
  assert (exec sample_ms "x" sample_sched (init [feedA; feedB]) = Some sample_final)
    as Hex by (vm_compute; reflexivity).
  destruct (one_worker_per_feed sample_ms "x" [feedA; feedB] sample_sched
    sample_final Hex) as (Hf & _ & Hn).
  split; [exact Hf|apply Hn; discriminate].
Defined.

(** X3.  When [Run] has returned no goroutine is left: the sentinel and every
    worker have ended, there is one ended worker per feed, and no goroutine
    can make a step. *)
Theorem Run_leaves_no_goroutine ms searchTerm feeds sched s :
  exec ms searchTerm sched (init feeds) = Some s ->
  main s = MReturned ->
  sentinel s = SExit /\
  Forall (fun w => w_pc w = WExit) (workers s) /\
  length (workers s) = length feeds /\
  (forall t, step ms searchTerm t s = Blocked).
Proof.
  intros Hex Hm. pose proof (reachable_Inv _ _ _ _ _ Hex) as I.
  pose proof (inv_returned _ _ _ _ I Hm) as Hc.
  assert (sentinel s = SExit) as Hs by (by apply (inv_closed _ _ _ _ I)).
  assert (forall i w, workers s !! i = Some w -> w_pc w = WExit) as Hw.
  { intros i w Hw. pose proof (Inv_closed_exit _ _ _ _ _ _ I Hc Hw) as Hl.
    unfold live in Hl. destruct (w_pc w); done. }
  split; [done|]. split; [by apply Forall_lookup_2|]. split.
  - rewrite (inv_feeds _ _ _ _ I), Hm. simpl. by rewrite app_nil_r, length_fmap.
  - intros [| |i]; simpl.
    + unfold step_main, Display. by rewrite Hm.
    + unfold step_sentinel. by rewrite Hs.
    + unfold step_worker. destruct (workers s !! i) as [w|] eqn:Hi; [|done].
      by rewrite (Hw _ _ Hi).
Qed.

Lemma Run_leaves_no_goroutine_witness :
  sentinel sample_final = SExit /\
  step sample_ms "x" (TWorker 0) sample_final = Blocked.
Proof.
  assert (exec sample_ms "x" sample_sched (init [feedA; feedB]) = Some sample_final)
    as Hex by (vm_compute; reflexivity).
  destruct (Run_leaves_no_goroutine sample_ms "x" [feedA; feedB] sample_sched
    sample_final Hex eq_refl) as (Hs & _ & _ & Hb).
  split; [exact Hs|exact (Hb (TWorker 0))].
Defined.

(** X4.  The channel hands over one result at a time.  In every state of
    every run [Display] holds at most one result it has not printed, and what
    went through the channel is what it has printed followed by what it
    holds.  A worker whose next action is a send moves only when [Display]
    waits on the channel, and its move puts the result into [Display]'s
    hands; at any other moment the worker is blocked. *)
Theorem unbuffered_handoff ms searchTerm feeds sched s :
  exec ms searchTerm sched (init feeds) = Some s ->
  (sends (trace s)).*2 = printed (trace s) ++ pending (main s) /\
  length (pending (main s)) <= 1 /\
  (forall i w r k, workers s !! i = Some w -> w_pc w = WRun (ASend r :: k) ->
     match main s with
     | MDisplay =>
         exists s', step ms searchTerm (TWorker i) s = Next s' /\
           main s' = MPrint r /\ trace s' = trace s ++ [EvSend i r] /\
           workers s' !! i = Some (set_pc w (WRun k))
     | _ => step ms searchTerm (TWorker i) s = Blocked
     end).
Proof.
  intros Hex. pose proof (reachable_Inv _ _ _ _ _ Hex) as I.
  split; [symmetry; apply (inv_printed _ _ _ _ I)|].
  split; [destruct (main s); simpl; lia|].
  intros i w r k Hw Hpc.
  destruct (Inv_live_open _ _ _ _ _ _ I Hw) as (Hc & _).
  { unfold live. by rewrite Hpc. }
  simpl. unfold step_worker. rewrite Hw, Hpc, Hc.
  destruct (main s); try done.
  eexists. split; [done|]. simpl. split; [done|]. split; [done|].
  apply list_lookup_insert_eq. by eapply lookup_lt_Some.
Qed.

Lemma unbuffered_handoff_witness :
  (sends (trace sample_final)).*2 = [found] /\
  length (pending (main sample_final)) <= 1.
Proof.
  assert (exec sample_ms "x" sample_sched (init [feedA; feedB]) = Some sample_final)
    as Hex by (vm_compute; reflexivity).
  destruct (unbuffered_handoff sample_ms "x" [feedA; feedB] sample_sched
    sample_final Hex) as (Hs & Hp & _).
  split; [exact Hs|exact Hp].
Defined.

Lemma by_tag_cons {A} (i j : nat) (x : A) (l : list (nat * A)) :
  by_tag i ((j, x) :: l) = if decide (j = i) then x :: by_tag i l else by_tag i l.
Proof.
  unfold by_tag. rewrite filter_cons. simpl. by destruct (decide (j = i)).
Qed.

Lemma by_tag_cons_concat {A} (j : nat) (x : A) (l : list (nat * A)) (ixs : list nat) :
  NoDup ixs ->
  concat ((fun i => by_tag i ((j, x) :: l)) <$> ixs) ≡ₚ
  (if decide (j ∈ ixs) then [x] else []) ++ concat ((fun i => by_tag i l) <$> ixs).
Proof.
  induction 1 as [|i ixs Hni Hnd IH]; [done|].
  rewrite !fmap_cons. cbn [concat]. rewrite IH, by_tag_cons.
  destruct (decide (j = i)) as [->|Hne].
  - rewrite (decide_True (P := i ∈ i :: ixs)) by apply list_elem_of_here.
    rewrite (decide_False (P := i ∈ ixs)) by done. done.
  - destruct (decide (j ∈ ixs)) as [Hin|Hnin].
    + rewrite decide_True by (by apply list_elem_of_further).
      simpl. by rewrite Permutation_middle.
    + rewrite decide_False; [done|].
      intros [?|?]%elem_of_cons; done.
Qed.

(** A tagged list is, up to order, its parts by tag put one after the other. *)
Lemma by_tag_partition {A} (l : list (nat * A)) (n : nat) :
  (forall i, n <= i -> by_tag i l = []) ->
  l.*2 ≡ₚ concat ((fun i => by_tag i l) <$> seq 0 n).
Proof.
  induction l as [|[j x] l IH]; intros Hout.
  - simpl. induction (seq 0 n) as [|i ixs IHs]; simpl; done.
  - rewrite by_tag_cons_concat by apply NoDup_seq.
    assert (j < n) as Hj.
    { destruct (decide (j < n)) as [|Hge]; [done|].
      specialize (Hout j). rewrite by_tag_cons, decide_True in Hout by done.
      discriminate Hout. lia. }
    rewrite decide_True by (apply elem_of_seq; lia).
    simpl. apply Permutation_skip. apply IH. intros i Hi.
    specialize (Hout i Hi). rewrite by_tag_cons, decide_False in Hout by lia. done.
Qed.

Lemma by_tag_logs i tr : by_tag i (logs tr) = omap logged_of (actions i tr).
Proof.
  unfold logs, actions.
  induction tr as [|ev tr IH]; [done|].
  destruct ev as [j e|j r|r|j|]; simpl; try done.
  - rewrite by_tag_cons. destruct (decide (j = i)); simpl; [by f_equal|done].
  - destruct (decide (j = i)); simpl; done.
Qed.

Lemma failures_resolved ms searchTerm feed m rs err :
  resolve ms feed = Some m -> Search m feed searchTerm = (rs, err) ->
  failures ms searchTerm feed = match err with Some e => [e] | None => [] end.
Proof.
  intros Hr Hs. unfold failures. rewrite (program_resolved _ _ _ _ Hr).
  destruct err as [e|].
  - by rewrite (Match_failure _ _ _ _ _ Hs).
  - rewrite (Match_success _ _ _ _ Hs).
    clear Hs. induction rs as [|r rs IH]; simpl; done.
Qed.

Lemma Inv_logged ms searchTerm feeds s :
  Inv ms searchTerm feeds s -> main s = MReturned ->
  (forall i feed, feeds !! i = Some feed ->
     by_tag i (logs (trace s)) = failures ms searchTerm feed) /\
  (forall i, length feeds <= i -> by_tag i (logs (trace s)) = []) /\
  (logs (trace s)).*2 ≡ₚ concat (failures ms searchTerm <$> feeds).
Proof.
  intros I Hm.
  assert (forall i feed, feeds !! i = Some feed ->
            by_tag i (logs (trace s)) = failures ms searchTerm feed) as Hone.
  { intros i feed Hf.
    destruct (Inv_actions _ _ _ _ _ _ I Hf) as (k & Ha & _ & Hk).
    destruct (Hk Hm) as [-> _]. rewrite app_nil_r in Ha.
    by rewrite by_tag_logs, Ha. }
  assert (forall i, length feeds <= i -> by_tag i (logs (trace s)) = []) as Hout.
  { intros i Hi. by rewrite by_tag_logs, (Inv_no_stranger _ _ _ _ _ I Hi). }
  split; [done|]. split; [done|].
  rewrite (by_tag_partition _ (length feeds)) by done.
  by erewrite fmap_seq_lookup.
Qed.

(** X5.  When [Run] has returned, the errors in the log are, up to order,
    the errors of the feeds whose [Search] failed: the worker of such a feed
    has logged its error once, the worker of any other feed has logged
    nothing, and nobody else writes an error. *)
Theorem every_failure_logged_once ms searchTerm feeds sched s :
  exec ms searchTerm sched (init feeds) = Some s ->
  main s = MReturned ->
  (logs (trace s)).*2 ≡ₚ concat (failures ms searchTerm <$> feeds) /\
  (forall i feed m rs err,
     feeds !! i = Some feed -> resolve ms feed = Some m ->
     Search m feed searchTerm = (rs, err) ->
     by_tag i (logs (trace s)) = match err with Some e => [e] | None => [] end) /\
  (forall i, length feeds <= i -> by_tag i (logs (trace s)) = []).
Proof.
  intros Hex Hm. pose proof (reachable_Inv _ _ _ _ _ Hex) as I.
  destruct (Inv_logged _ _ _ _ I Hm) as (Hone & Hout & Hperm).
  split; [done|]. split; [|done].
  intros i feed m rs err Hf Hr Hs.
  by rewrite (Hone _ _ Hf), (failures_resolved _ _ _ _ _ _ Hr Hs).
Qed.

Lemma every_failure_logged_once_witness :
  (logs (trace sample_final)).*2 ≡ₚ ["fetch failed"] /\
  by_tag 0 (logs (trace sample_final)) = [].
Proof.
  assert (exec sample_ms "x" sample_sched (init [feedA; feedB]) = Some sample_final)
    as Hex by (vm_compute; reflexivity).
  destruct (every_failure_logged_once sample_ms "x" [feedA; feedB] sample_sched
    sample_final Hex eq_refl) as (Hperm & Hone & _).
  split; [exact Hperm|].
  exact (Hone 0 feedA rssMatcher [found] None eq_refl eq_refl eq_refl).
Defined.

Lemma final_workers ms searchTerm feeds s :
  Inv ms searchTerm feeds s -> main s = MReturned ->
  workers s = (fun feed => Worker (resolve ms feed) feed WExit) <$> feeds.
Proof.
  intros I Hm.
  pose proof (inv_feeds _ _ _ _ I) as Hf. rewrite Hm in Hf. simpl in Hf.
  rewrite app_nil_r in Hf. rewrite Hf, <- list_fmap_compose.
  pose proof (inv_returned _ _ _ _ I Hm) as Hc.
  assert (Forall (fun w => w_matcher w = resolve ms (w_feed w) /\ w_pc w = WExit)
            (workers s)) as Hall.
  { apply Forall_lookup_2. intros i w Hw. split.
    - by apply (Forall_lookup_1 _ _ _ _ (inv_resolve _ _ _ _ I) Hw).
    - pose proof (Inv_closed_exit _ _ _ _ _ _ I Hc Hw) as Hl.
      unfold live in Hl. destruct (w_pc w); done. }
  clear Hf. induction Hall as [|w ws [Hr Hpc] _ IH]; [done|].
  rewrite fmap_cons, <- IH. f_equal.
  destruct w as [wm wf wpc]. simpl in *. by rewrite Hr, Hpc.
Qed.

Lemma final_actions ms searchTerm feeds s i :
  Inv ms searchTerm feeds s -> main s = MReturned ->
  actions i (trace s) =
  match feeds !! i with
  | Some feed => program searchTerm (newborn ms feed)
  | None => []
  end.
Proof.
  intros I Hm. destruct (feeds !! i) as [feed|] eqn:Hf.
  - destruct (Inv_actions _ _ _ _ _ _ I Hf) as (k & Ha & _ & Hk).
    destruct (Hk Hm) as [-> _]. by rewrite app_nil_r in Ha.
  - apply (Inv_no_stranger _ _ _ _ _ I). by apply lookup_ge_None_1.
Qed.

(** X6.  The schedule decides the order of the trace and nothing else.  Two
    runs over the same feeds that have both returned end with the same
    workers, counter, channel and sentinel; every worker has performed the same
    actions in the same order in both; and what was printed in one is a
    rearrangement of what was printed in the other, and so for the log. *)
Theorem outcome_independent_of_schedule ms searchTerm feeds sched1 sched2 s1 s2 :
  exec ms searchTerm sched1 (init feeds) = Some s1 ->
  exec ms searchTerm sched2 (init feeds) = Some s2 ->
  main s1 = MReturned -> main s2 = MReturned ->
  workers s1 = workers s2 /\ sentinel s1 = sentinel s2 /\
  wg s1 = wg s2 /\ closed s1 = closed s2 /\
  (forall i, actions i (trace s1) = actions i (trace s2)) /\
  printed (trace s1) ≡ₚ printed (trace s2) /\
  (logs (trace s1)).*2 ≡ₚ (logs (trace s2)).*2.
Proof.
  intros Hex1 Hex2 Hm1 Hm2.
  pose proof (reachable_Inv _ _ _ _ _ Hex1) as I1.
  pose proof (reachable_Inv _ _ _ _ _ Hex2) as I2.
  pose proof (inv_returned _ _ _ _ I1 Hm1) as Hc1.
  pose proof (inv_returned _ _ _ _ I2 Hm2) as Hc2.
  pose proof (proj1 (inv_closed _ _ _ _ I1) Hc1) as Hs1.
  pose proof (proj1 (inv_closed _ _ _ _ I2) Hc2) as Hs2.
  split. { by rewrite (final_workers _ _ _ _ I1 Hm1), (final_workers _ _ _ _ I2 Hm2). }
  split; [congruence|]. split.
  { rewrite (inv_waited _ _ _ _ I1), (inv_waited _ _ _ _ I2); auto. }
  split; [congruence|]. split.
  { intros i. by rewrite (final_actions _ _ _ _ _ I1 Hm1), (final_actions _ _ _ _ _ I2 Hm2). }
  split.
  - rewrite (proj2 (Inv_delivered _ _ _ _ I1 Hm1)).
    by rewrite (proj2 (Inv_delivered _ _ _ _ I2 Hm2)).
  - rewrite (proj2 (proj2 (Inv_logged _ _ _ _ I1 Hm1))).
    by rewrite (proj2 (proj2 (Inv_logged _ _ _ _ I2 Hm2))).
Qed.

Lemma outcome_independent_of_schedule_witness :
  exec sample_ms "x" sample_sched (init [feedA; feedB]) = Some sample_final /\
  exec sample_ms "x" sample_sched2 (init [feedA; feedB]) = Some sample_final2 /\
  trace sample_final <> trace sample_final2 /\
  printed (trace sample_final) ≡ₚ printed (trace sample_final2).
Proof.
  assert (exec sample_ms "x" sample_sched (init [feedA; feedB]) = Some sample_final)
    as Hex by (vm_compute; reflexivity).
  assert (exec sample_ms "x" sample_sched2 (init [feedA; feedB]) = Some sample_final2)
    as Hex2 by (vm_compute; reflexivity).
  destruct (outcome_independent_of_schedule sample_ms "x" [feedA; feedB]
    sample_sched sample_sched2 sample_final sample_final2 Hex Hex2 eq_refl eq_refl)
    as (_ & _ & _ & _ & _ & Hperm & _).
  split; [exact Hex|]. split; [exact Hex2|]. split; [discriminate|exact Hperm].
Defined.

(** ** Facts about the expression demo *)

Module DemoFacts.

Import Stdlib.Strings.Ascii.
Import Demo.

Section Facts.

Context {L : Lib}.

(** Induction on expressions, with the hypothesis for every argument of a
    call. *)
Lemma Expr_induction (P : Expr -> Prop) :
  (forall v, P (Var v)) ->
  (forall l, P (literal l)) ->
  (forall op x, P x -> P (unary op x)) ->
  (forall op x y, P x -> P y -> P (binary op x y)) ->
  (forall fn args, Forall P args -> P (call fn args)) ->
  forall e, P e.
Proof.
  intros HVar Hlit Hun Hbin Hcall. fix IH 1.
  intros [v|l|op x|op x y|fn args].
  - apply HVar.
  - apply Hlit.
  - apply Hun, IH.
  - apply Hbin; apply IH.
  - apply Hcall. induction args as [|a args IHargs]; constructor; [apply IH|exact IHargs].
Qed.

Lemma ContainsRune_unary op :
  ContainsRune "+-" op = true -> op = rune_of "+"%char \/ op = rune_of "-"%char.
Proof.
  unfold ContainsRune. cbn [String.list_ascii_of_string existsb].
  rewrite !orb_true_iff, !Z.eqb_eq. intuition congruence.
Qed.

Lemma ContainsRune_binary op :
  ContainsRune "+-*/" op = true ->
  op = rune_of "+"%char \/ op = rune_of "-"%char \/
  op = rune_of "*"%char \/ op = rune_of "/"%char.
Proof.
  unfold ContainsRune. cbn [String.list_ascii_of_string existsb].
  rewrite !orb_true_iff, !Z.eqb_eq. intuition congruence.
Qed.

Lemma numParams_Some fn arity :
  numParams !! fn = Some arity ->
  (fn = "pow" /\ arity = 2%Z) \/ (fn = "sin" /\ arity = 1%Z) \/
  (fn = "sqrt" /\ arity = 1%Z).
Proof.
  unfold numParams.
  rewrite !lookup_insert_Some, lookup_singleton_Some. intuition (subst; auto).
Qed.

(** When the loop of [call.Check] ends without error, the check of each
    argument has. *)
Lemma check_args_None args vars vars' :
  check_args Check args vars = (vars', None) ->
  Forall (fun arg => exists v v', Check arg v = (v', None)) args.
Proof.
  revert vars. induction args as [|arg args IH]; intros vars H; [constructor|].
  simpl in H. destruct (Check arg vars) as [vars1 [e|]] eqn:Harg; [done|].
  constructor; eauto.
Qed.

Lemma Check_safe_aux (e : Expr) :
  forall vars vars', Check e vars = (vars', None) ->
  forall env, is_Some (Eval e env).
Proof.
  induction e as [v|l|op x IHx|op x y IHx IHy|fn args IHargs] using Expr_induction;
    intros vars vars' H env; simpl in *.
  - by eexists.
  - by eexists.
  - destruct (ContainsRune "+-" op) eqn:Hop; [|done]. simpl in H.
    destruct (IHx _ _ H env) as [a Ha].
    destruct (ContainsRune_unary _ Hop) as [->| ->]; simpl; rewrite Ha; by eexists.
  - destruct (ContainsRune "+-*/" op) eqn:Hop; [|done]. simpl in H.
    destruct (Check x vars) as [vars1 [e|]] eqn:Hx; [done|].
    destruct (IHx _ _ Hx env) as [a Ha]. destruct (IHy _ _ H env) as [b Hb].
    destruct (ContainsRune_binary _ Hop) as [->|[->|[->| ->]]]; simpl;
      rewrite Ha, Hb; by eexists.
  - destruct (numParams !! fn) as [arity|] eqn:Hn; [|done].
    destruct (Z.eqb_spec (Z.of_nat (length args)) arity) as [Hlen|]; [|done].
    simpl in H. apply check_args_None in H.
    assert (Forall (fun arg => is_Some (Eval arg env)) args) as Hall.
    { clear Hlen. induction IHargs as [|arg args Harg _ IH]; [constructor|].
      apply Forall_cons in H as [(v & v' & Hv) H]. constructor; eauto. }
    destruct (numParams_Some _ _ Hn) as [[-> ->]|[[-> ->]|[-> ->]]]; simpl.
    + destruct Hall as [|a0 ? [a Ha] [|a1 ? [b Hb] _]]; simpl in Hlen; try lia.
      rewrite Ha, Hb. by eexists.
    + destruct Hall as [|a0 ? [a Ha] _]; simpl in Hlen; try lia.
      rewrite Ha. by eexists.
    + destruct Hall as [|a0 ? [a Ha] _]; simpl in Hlen; try lia.
      rewrite Ha. by eexists.
Qed.


(** *** What [Check] does to [vars] *)

Lemma grown_refl X vars : grown X vars vars.
Proof. intros v. by left. Qed.

Lemma grown_trans X Y vars vars1 vars2 :
  grown X vars vars1 -> grown Y vars1 vars2 -> grown (X ∪ Y) vars vars2.
Proof.
  intros H1 H2 v. destruct (H2 v) as [->|[Hin Ht]].
  - destruct (H1 v) as [->|[Hin Ht]]; [by left|right].
    split; [set_solver|done].
  - right. split; [set_solver|done].
Qed.

Lemma grown_mono X Y vars vars' : X ⊆ Y -> grown X vars vars' -> grown Y vars vars'.
Proof.
  intros Hsub H v. destruct (H v) as [->|[Hin Ht]]; [by left|right].
  split; [set_solver|done].
Qed.

Lemma grown_keeps_true X vars vars' v :
  grown X vars vars' -> vars !! v = Some true -> vars' !! v = Some true.
Proof. intros H Hv. destruct (H v) as [->|[_ Ht]]; done. Qed.

Lemma Check_grows (e : Expr) :
  forall vars vars' err, Check e vars = (vars', err) -> grown (vars_of e) vars vars'.
Proof.
  induction e as [w|l|op x IHx|op x y IHx IHy|fn args IHargs] using Expr_induction;
    intros vars vars' err H; simpl in *.
  - simplify_eq. intros v. destruct (decide (v = w)) as [->|Hne].
    + right. split; [set_solver|apply lookup_insert_eq].
    + left. by apply lookup_insert_ne.
  - simplify_eq. apply grown_refl.
  - destruct (ContainsRune "+-" op); simpl in H; [eauto|].
    simplify_eq. apply grown_refl.
  - destruct (ContainsRune "+-*/" op); simpl in H.
    2:{ simplify_eq. apply grown_refl. }
    destruct (Check x vars) as [vars1 [e|]] eqn:Hx.
    + simplify_eq. eapply grown_mono; [|by eapply IHx]. set_solver.
    + eapply grown_trans; eauto.
  - destruct (numParams !! fn) as [arity|].
    2:{ simplify_eq. apply grown_refl. }
    destruct (Z.of_nat (length args) =? arity)%Z; simpl in H.
    2:{ simplify_eq. apply grown_refl. }
    revert vars H. induction IHargs as [|arg args Harg _ IH]; intros vars H.
    + simpl in H. simplify_eq. apply grown_refl.
    + simpl in H. destruct (Check arg vars) as [vars1 [e|]] eqn:Ha.
      * simplify_eq. eapply grown_mono; [|by eapply Harg].
        rewrite fmap_cons. simpl. set_solver.
      * rewrite fmap_cons. simpl. eapply grown_trans; eauto.
Qed.

Lemma check_args_grows args vars vars' err :
  check_args Check args vars = (vars', err) ->
  grown (⋃ (vars_of <$> args)) vars vars'.
Proof.
  revert vars. induction args as [|arg args IH]; intros vars H; simpl in H.
  - simplify_eq. apply grown_refl.
  - rewrite fmap_cons. simpl.
    destruct (Check arg vars) as [vars1 [e|]] eqn:Ha.
    + simplify_eq. eapply grown_mono; [|by eapply Check_grows]. set_solver.
    + eapply grown_trans; [by eapply Check_grows|eauto].
Qed.

Lemma Check_collects (e : Expr) :
  forall vars vars', Check e vars = (vars', None) ->
  forall v, v ∈ vars_of e -> vars' !! v = Some true.
Proof.
  induction e as [w|l|op x IHx|op x y IHx IHy|fn args IHargs] using Expr_induction;
    intros vars vars' H v Hv; simpl in *.
  - simplify_eq. apply elem_of_singleton in Hv as ->. apply lookup_insert_eq.
  - set_solver.
  - destruct (ContainsRune "+-" op); simpl in H; [eauto|done].
  - destruct (ContainsRune "+-*/" op); simpl in H; [|done].
    destruct (Check x vars) as [vars1 [e|]] eqn:Hx; [done|].
    apply elem_of_union in Hv as [Hv|Hv]; [|eauto].
    eapply grown_keeps_true; [by eapply Check_grows|]. eauto.
  - destruct (numParams !! fn) as [arity|]; [|done].
    destruct (Z.of_nat (length args) =? arity)%Z; simpl in H; [|done].
    revert vars H Hv. induction IHargs as [|arg args Harg _ IH]; intros vars H Hv.
    + simpl in Hv. set_solver.
    + simpl in H. destruct (Check arg vars) as [vars1 [e|]] eqn:Ha; [done|].
      rewrite fmap_cons in Hv. simpl in Hv.
      apply elem_of_union in Hv as [Hv|Hv]; [|eauto].
      assert (grown (⋃ (vars_of <$> args)) vars1 vars') as Hg
        by (by eapply check_args_grows).
      eapply grown_keeps_true; [exact Hg|]. eauto.
Qed.


(** *** What [Eval] reads *)

Lemma Eval_agree (e : Expr) :
  forall env1 env2,
  (forall v, v ∈ vars_of e -> get env1 v = get env2 v) ->
  Eval e env1 = Eval e env2.
Proof.
  induction e as [w|l|op x IHx|op x y IHx IHy|fn args IHargs] using Expr_induction;
    intros env1 env2 H; simpl in *.
  - f_equal. apply H. set_solver.
  - done.
  - rewrite (IHx env1 env2); [done|]. intros v Hv. apply H. done.
  - rewrite (IHx env1 env2), (IHy env1 env2); [done| |];
      intros v Hv; apply H; set_solver.
  - assert (Forall (fun arg => Eval arg env1 = Eval arg env2) args) as Hall.
    { clear fn. induction IHargs as [|arg args Harg _ IH]; [constructor|].
      rewrite fmap_cons in H. simpl in H. constructor.
      - apply Harg. intros v Hv. apply H. set_solver.
      - apply IH. intros v Hv. apply H. set_solver. }
    destruct Hall as [|a0 ? E0 [|a1 ? E1 _]]; rewrite ?E0, ?E1; done.
Qed.

(** *** The verdict of [Check] *)

Lemma Check_verdict (e : Expr) :
  forall vars1 vars2, (Check e vars1).2 = (Check e vars2).2.
Proof.
  induction e as [w|l|op x IHx|op x y IHx IHy|fn args IHargs] using Expr_induction;
    intros vars1 vars2; simpl.
  - done.
  - done.
  - destruct (ContainsRune "+-" op); simpl; [apply IHx|done].
  - destruct (ContainsRune "+-*/" op); simpl; [|done].
    specialize (IHx vars1 vars2).
    destruct (Check x vars1) as [v1 e1], (Check x vars2) as [v2 e2].
    simpl in IHx. subst e2. destruct e1; [done|apply IHy].
  - destruct (numParams !! fn) as [arity|]; [|done].
    destruct (Z.of_nat (length args) =? arity)%Z; simpl; [|done].
    revert vars1 vars2. induction IHargs as [|arg args Harg _ IH]; intros vars1 vars2.
    + done.
    + simpl. specialize (Harg vars1 vars2).
      destruct (Check arg vars1) as [v1 e1], (Check arg vars2) as [v2 e2].
      simpl in Harg. subst e2. destruct e1; [done|apply IH].
Qed.

(** *** The loop of [call.String] *)

Lemma append_assoc (s1 s2 s3 : string) : (s1 +:+ s2) +:+ s3 = s1 +:+ (s2 +:+ s3).
Proof.
  induction s1 as [|c s1 IH]; [reflexivity|].
  change (String c ((s1 +:+ s2) +:+ s3) = String c (s1 +:+ (s2 +:+ s3))).
  by rewrite IH.
Qed.

Lemma append_empty_r (s : string) : s +:+ "" = s.
Proof.
  induction s as [|c s IH]; [reflexivity|].
  change (String c (s +:+ "") = String c s). by rewrite IH.
Qed.

Lemma string_args_concat (str : Expr -> string) (len : Z) args :
  forall i acc, (i + Z.of_nat (length args) = len)%Z ->
  string_args str len args i acc = acc +:+ String.concat ", " (str <$> args).
Proof.
  induction args as [|v rest IH]; intros i acc Hlen.
  - simpl. by rewrite append_empty_r.
  - cbn [string_args]. rewrite fmap_cons. cbn [String.concat].
    destruct rest as [|v' rest].
    + simpl in Hlen. destruct (Z.ltb_spec i (len - 1)); [lia|]. reflexivity.
    + simpl length in Hlen. destruct (Z.ltb_spec i (len - 1)); [|lia].
      rewrite IH.
      * rewrite !fmap_cons. by rewrite !append_assoc.
      * simpl length. lia.
Qed.

End Facts.

(** X7.  An expression that [Check] accepts never makes [Eval] panic: in
    every environment [Eval] returns a value, whatever set of variables
    [Check] was given. *)
Theorem Check_then_Eval_returns `{L : Lib} (e : Expr) vars vars' :
  Check e vars = (vars', None) ->
  forall env, exists x, Eval e env = Some x.
Proof. intros H env. by eapply Check_safe_aux. Qed.

Lemma Check_then_Eval_returns_witness :
  (Check taowa ∅).2 = None /\ exists x, Eval taowa wawa = Some x.
Proof.
  split; [reflexivity|].
  exact (Check_then_Eval_returns (L := sample_lib) taowa ∅ (Check taowa ∅).1
           eq_refl wawa).
Defined.

(** X8.  [Check] only adds to its map: whatever it returns, every entry of
    the map is as before or is a variable of the expression now set to true;
    and when it returns no error, the map afterwards is the map before with
    every variable of the expression set to true. *)
Theorem Check_collects_variables `{L : Lib} (e : Expr) vars vars' err :
  Check e vars = (vars', err) ->
  (forall v, vars' !! v = vars !! v \/ (v ∈ vars_of e /\ vars' !! v = Some true)) /\
  (err = None ->
   forall v, vars' !! v = if decide (v ∈ vars_of e) then Some true else vars !! v).
Proof.
  intros H. pose proof (Check_grows _ _ _ _ H) as Hg. split; [exact Hg|].
  intros -> v. destruct (decide (v ∈ vars_of e)) as [Hin|Hnin].
  - by eapply Check_collects.
  - destruct (Hg v) as [?|[? _]]; done.
Qed.

Lemma Check_collects_variables_witness :
  (Check taowa {["w" := false]}).1 !! "q" = Some true /\
  (Check taowa {["w" := false]}).1 !! "w" = Some false.
Proof.
  destruct (Check_collects_variables (L := sample_lib) taowa {["w" := false]}
              (Check taowa {["w" := false]}).1 None eq_refl) as [_ H].
  split; [exact (H eq_refl "q")|exact (H eq_refl "w")].
Defined.

(** X9.  [Eval] reads the environment only at the variables that occur in the
    expression, a variable without a binding counting as zero: two
    environments that give those variables the same values give the same
    result, panic included.  So binding a variable that has no binding to zero
    changes nothing, and neither does binding a variable that does not
    occur. *)
Theorem Eval_reads_only_its_variables `{L : Lib} (e : Expr) env1 env2 :
  (forall v, v ∈ vars_of e -> get env1 v = get env2 v) ->
  Eval e env1 = Eval e env2 /\
  (forall v, env1 !! v = None -> Eval e (<[v := fzero]> env1) = Eval e env1) /\
  (forall v x, v ∉ vars_of e -> Eval e (<[v := x]> env1) = Eval e env1).
Proof.
  intros H. split; [by apply Eval_agree|]. split.
  - intros v Hv. apply Eval_agree. intros w _. unfold get.
    destruct (decide (w = v)) as [->|Hne].
    + by rewrite lookup_insert_eq, Hv.
    + by rewrite lookup_insert_ne.
  - intros v x Hv. apply Eval_agree. intros w Hw. unfold get.
    rewrite lookup_insert_ne; [done|]. by intros ->.
Qed.

Lemma Eval_reads_only_its_variables_witness :
  Eval taowa (<["z" := 0%Z]> wawa) = Eval taowa wawa.
Proof.
  exact (proj1 (proj2 (Eval_reads_only_its_variables (L := sample_lib) taowa
           wawa wawa (fun v _ => eq_refl))) "z" eq_refl).
Defined.

(** X10.  Whether [Check] returns an error, and which one, does not depend on
    the map it is given. *)
Theorem Check_verdict_independent_of_vars `{L : Lib} (e : Expr) vars1 vars2 :
  (Check e vars1).2 = (Check e vars2).2.
Proof. apply Check_verdict. Qed.

Lemma Check_verdict_independent_of_vars_witness :
  (Check (L := sample_lib) (binary (rune_of "+"%char) (Var "a")
            (unary (rune_of "*"%char) (Var "b"))) ∅).2 =
  Some (UnexpectedUnaryOp (rune_of "*"%char)) /\
  (Check (L := sample_lib) (binary (rune_of "+"%char) (Var "a")
            (unary (rune_of "*"%char) (Var "b"))) {["a" := false]}).2 =
  Some (UnexpectedUnaryOp (rune_of "*"%char)).
Proof.
  split; [reflexivity|].
  rewrite (Check_verdict_independent_of_vars (L := sample_lib) _ _ ∅).
  reflexivity.
Defined.

(** X11.  The loop of [call.String] puts the strings of the arguments one
    after the other with ", " between two of them and nothing after the last:
    the string of a call is the function name followed by the joined strings
    of the arguments in parentheses. *)
Theorem call_String_joins_arguments `{L : Lib} fn (args : list Expr) :
  String_ (call fn args) =
  "函数:" +:+ fn +:+ "(" +:+ String.concat ", " (String_ <$> args) +:+ ")".
Proof.
  cbn [String_]. rewrite string_args_concat by lia. reflexivity.
Qed.

Lemma call_String_joins_arguments_witness :
  String_ taowa =
  "函数:pow((变量:x | 操作符号:'+' | 变量:y), 函数:sqrt((变量:e | 操作符号:'+' | 变量:q)))".
Proof.
  unfold taowa. rewrite (call_String_joins_arguments (L := sample_lib)).
  reflexivity.
Defined.

(** X12.  [Eval] of a call to one of the three functions of [numParams] looks
    at as many leading arguments as the function has parameters and at no
    other: with fewer arguments it panics, with at least that many the result
    is that of the call with the surplus arguments dropped; and a call to any
    other function panics. *)
Theorem Eval_call_arguments `{L : Lib} fn (args : list Expr) env :
  match numParams !! fn with
  | Some arity =>
      ((Z.of_nat (length args) < arity)%Z -> Eval (call fn args) env = None) /\
      ((arity <= Z.of_nat (length args))%Z ->
       Eval (call fn args) env = Eval (call fn (take (Z.to_nat arity) args)) env)
  | None => Eval (call fn args) env = None
  end.
Proof.
  destruct (numParams !! fn) as [arity|] eqn:Hn.
  - destruct (numParams_Some _ _ Hn) as [[-> ->]|[[-> ->]|[-> ->]]].
    + split; intros Hlen; destruct args as [|a0 [|a1 rest]]; simpl in *; try done; lia.
    + split; intros Hlen; destruct args as [|a0 rest]; simpl in *; try done; lia.
    + split; intros Hlen; destruct args as [|a0 rest]; simpl in *; try done; lia.
  - simpl. unfold numParams in Hn.
    rewrite !lookup_insert_None, lookup_singleton_None in Hn.
    destruct Hn as [[Hsqrt Hsin] Hpow].
    apply String.eqb_neq in Hpow, Hsin, Hsqrt.
    rewrite (String.eqb_sym fn "pow"), Hpow.
    rewrite (String.eqb_sym fn "sin"), Hsin.
    rewrite (String.eqb_sym fn "sqrt"), Hsqrt. done.
Qed.

Lemma Eval_call_arguments_witness :
  Eval (L := sample_lib)
    (call "sin" [Var "x"; unary (rune_of "?"%char) (Var "y")]) env =
  Eval (L := sample_lib) (call "sin" [Var "x"]) env /\
  (Check (L := sample_lib)
     (call "sin" [Var "x"; unary (rune_of "?"%char) (Var "y")]) ∅).2 =
  Some (WrongArgCount "sin" 2 1).
Proof.
  split; [|reflexivity].
  pose proof (Eval_call_arguments (L := sample_lib) "sin"
    [Var "x"; unary (rune_of "?"%char) (Var "y")] env) as H.
  change (numParams !! "sin") with (Some 1%Z) in H.
  apply (proj2 H). simpl. lia.
Defined.

End DemoFacts.
